(** * Movies service (src/moviesService.ts) over a document repository

    A shallow embedding of the five service operations [getAllMovies],
    [getMovieById], [createMovie], [updateMovie] and [deleteMovie], of the
    JavaScript values they build (object literals with spread, property
    assignment, [structuredClone], [new Date()]), and of the document
    repository they call. *)

From Stdlib Require Import QArith.
From stdpp Require Import gmap strings list fin_maps.

Set Warnings "-register-all".

Set Default Proof Using "Type".
Open Scope string_scope.

(** ** JavaScript values *)

Module Js.

(** The identity of a mutable object.  Two values alias each other when an
    identity occurs in both. *)
Definition loc := nat.

(** Values as the service sees them: primitives are immutable and carry no
    identity; dates, arrays and objects are mutable and carry one.  The own
    enumerable properties of an object are kept in insertion order. *)
Inductive value : Type :=
| VUndefined
| VNull
| VBool (b : bool)
| VNum (x : Q)
| VStr (s : string)
| VDate (l : loc) (ms : Z)
| VArr (l : loc) (items : list value)
| VObj (l : loc) (own : list (string * value)).

Abbreviation props := (list (string * value)).

(** An object: what [DocumentData], [Movie] and [Partial<Movie>] are at run
    time (the casts [as Movie] leave the object as it is). *)
Record jsobject := Obj { ident : loc; own : props }.

Definition of_object (o : jsobject) : value := VObj (ident o) (own o).

(** [ToBoolean], the test behind [!x]. *)
Definition truthy (v : value) : bool :=
  match v with
  | VUndefined | VNull => false
  | VBool b => b
  | VNum x => negb (Qeq_bool x 0)
  | VStr s => negb (String.eqb s "")
  | VDate _ _ | VArr _ _ | VObj _ _ => true
  end.

(** Property lookup, [o.k] being [js_get o k]: a missing property reads as
    [undefined]. *)
Fixpoint get_prop (k : string) (ps : props) : option value :=
  match ps with
  | [] => None
  | (k', v) :: ps' => if decide (k = k') then Some v else get_prop k ps'
  end.

Definition js_get (o : jsobject) (k : string) : value :=
  default VUndefined (get_prop k (own o)).

(** Property definition: an existing property keeps its place, a new one is
    appended. *)
Fixpoint set_prop (k : string) (v : value) (ps : props) : props :=
  match ps with
  | [] => [(k, v)]
  | (k', v') :: ps' =>
      if decide (k = k') then (k, v) :: ps' else (k', v') :: set_prop k v ps'
  end.

(** [o.k = v]. *)
Definition assign (o : jsobject) (k : string) (v : value) : jsobject :=
  Obj (ident o) (set_prop k v (own o)).

(** The own property keys of an object, each once. *)
Definition own_keys (ps : props) : list string := remove_dups ps.*1.

(** The spread [...source] inside an object literal whose properties so far
    are [target]: for each own key of the source, read it and define it on
    the target.  Spreading [undefined] adds nothing. *)
Definition copy_data_properties (target : props) (source : option jsobject)
  : props :=
  match source with
  | None => target
  | Some src =>
      fold_left
        (fun acc k =>
           match get_prop k (own src) with
           | Some v => set_prop k v acc
           | None => acc
           end)
        (own_keys (own src)) target
  end.

(** [structuredClone]: the same data under identities taken from [n]
    upwards; the second component is the next unused identity. *)
Fixpoint clone (v : value) (n : loc) : value * loc :=
  match v with
  | VDate _ ms => (VDate n ms, S n)
  | VArr _ items =>
      let '(items', n') :=
        (fix go (xs : list value) (m : loc) : list value * loc :=
           match xs with
           | [] => ([], m)
           | x :: xs' =>
               let '(x', m1) := clone x m in
               let '(xs'', m2) := go xs' m1 in
               (x' :: xs'', m2)
           end) items (S n) in
      (VArr n items', n')
  | VObj _ ps =>
      let '(ps', n') :=
        (fix go (xs : props) (m : loc) : props * loc :=
           match xs with
           | [] => ([], m)
           | (k, x) :: xs' =>
               let '(x', m1) := clone x m in
               let '(xs'', m2) := go xs' m1 in
               ((k, x') :: xs'', m2)
           end) ps (S n) in
      (VObj n ps', n')
  | _ => (v, n)
  end.

Fixpoint clone_items (xs : list value) (m : loc) : list value * loc :=
  match xs with
  | [] => ([], m)
  | x :: xs' =>
      let '(x', m1) := clone x m in
      let '(xs'', m2) := clone_items xs' m1 in
      (x' :: xs'', m2)
  end.

Fixpoint clone_props (xs : props) (m : loc) : props * loc :=
  match xs with
  | [] => ([], m)
  | (k, x) :: xs' =>
      let '(x', m1) := clone x m in
      let '(xs'', m2) := clone_props xs' m1 in
      ((k, x') :: xs'', m2)
  end.

Definition clone_object (o : jsobject) (n : loc) : jsobject * loc :=
  let '(ps', n') := clone_props (own o) (S n) in (Obj n ps', n').

(** Every identity that occurs in a value. *)
Fixpoint idents (v : value) : list loc :=
  match v with
  | VDate l _ => [l]
  | VArr l items => l :: flat_map idents items
  | VObj l ps => l :: flat_map (fun kv => idents kv.2) ps
  | _ => []
  end.

Definition idents_props (ps : props) : list loc :=
  flat_map (fun kv => idents kv.2) ps.

Definition idents_object (o : jsobject) : list loc :=
  ident o :: idents_props (own o).

(** The data of a value with its identities forgotten. *)
Fixpoint strip (v : value) : value :=
  match v with
  | VDate _ ms => VDate 0 ms
  | VArr _ items => VArr 0 (map strip items)
  | VObj _ ps => VObj 0 (map (fun kv => (kv.1, strip kv.2)) ps)
  | _ => v
  end.

Definition strip_props (ps : props) : props :=
  map (fun kv => (kv.1, strip kv.2)) ps.

(** Two values hold the same data (they may be distinct objects). *)
Definition same_data (v w : value) : Prop := strip v = strip w.

Definition same_fields (ps qs : props) : Prop := strip_props ps = strip_props qs.

End Js.

Export Js.

(** ** The world the service runs in, and promises over it *)

Module Async.

(** A call of a repository primitive, as the store receives it. *)
Inductive call : Type :=
| CreateDocument (collectionName : string) (data : jsobject)
| GetDocuments (collectionName : string)
| GetDocumentById (collectionName id : string)
| UpdateDocument (collectionName id : string) (data : jsobject)
| DeleteDocument (collectionName id : string).

(** The store maps a collection name and a document key to what the
    document's [data()] yields ([None] for [undefined]); the clock is what
    [new Date()] reads; [next_ident] is the first identity no object has
    yet; [calls] lists the repository calls issued so far, oldest first. *)
Record world := World {
  store : gmap string (gmap string (option jsobject));
  clock : Z;
  next_ident : loc;
  calls : list call
}.

(** A thrown value: [new Error(message)]. *)
Inductive exn : Type := Error (message : string).

Inductive outcome (A : Type) : Type :=
| Resolved (a : A)
| Rejected (e : exn).
Arguments Resolved {A} a.
Arguments Rejected {A} e.

(** An asynchronous computation, run to its settlement on a world. *)
Definition Promise (A : Type) : Type := world -> outcome A * world.

Definition ret {A} (a : A) : Promise A := fun w => (Resolved a, w).

Definition throw {A} (e : exn) : Promise A := fun w => (Rejected e, w).

Definition bind {A B} (m : Promise A) (k : A -> Promise B) : Promise B :=
  fun w =>
    match m w with
    | (Resolved a, w') => k a w'
    | (Rejected e, w') => (Rejected e, w')
    end.

(** [try { m } catch (error) { handler error }]. *)
Definition try_catch {A} (m : Promise A) (handler : exn -> Promise A)
  : Promise A :=
  fun w =>
    match m w with
    | (Resolved a, w') => (Resolved a, w')
    | (Rejected e, w') => handler e w'
    end.

Declare Scope promise_scope.
Delimit Scope promise_scope with promise.
Notation "x <- m ;; k" := (bind m (fun x => k))
  (at level 100, m at next level, right associativity) : promise_scope.
Notation "m ;; k" := (bind m (fun _ => k))
  (at level 100, right associativity) : promise_scope.
Open Scope promise_scope.

(** [xs.map(f)] with an effectful callback, left to right. *)
Fixpoint map_promise {A B} (f : A -> Promise B) (xs : list A)
  : Promise (list B) :=
  match xs with
  | [] => ret []
  | x :: xs' => y <- f x ;; ys <- map_promise f xs' ;; ret (y :: ys)
  end.

(** Taking the next unused identity. *)
Definition alloc : Promise loc :=
  fun w =>
    (Resolved (next_ident w),
     World (store w) (clock w) (S (next_ident w)) (calls w)).

(** An object literal with the given properties: a new object. *)
Definition object_literal (ps : props) : Promise jsobject :=
  l <- alloc ;; ret (Obj l ps).

(** [new Date()]: a new date object holding the current time. *)
Definition new_Date : Promise value :=
  fun w =>
    (Resolved (VDate (next_ident w) (clock w)),
     World (store w) (clock w) (S (next_ident w)) (calls w)).

(** [structuredClone(o)] for an object [o]. *)
Definition structuredClone (o : jsobject) : Promise jsobject :=
  fun w =>
    let '(o', n') := clone_object o (next_ident w) in
    (Resolved o', World (store w) (clock w) n' (calls w)).

End Async.

Export Async.

(** ** The document repository *)

Module Repository.

(** What a document snapshot exposes: its key and its data-extraction
    operation. *)
Record DocumentSnapshot := Snapshot {
  doc_id : string;
  doc_data : option jsobject
}.

(** The documents of a collection. *)
Definition collection (collectionName : string) (w : world)
  : gmap string (option jsobject) :=
  default ∅ (store w !! collectionName).

Definition record_call (c : call) (w : world) : world :=
  World (store w) (clock w) (next_ident w) (calls w ++ [c]).

Definition put_collection (collectionName : string)
    (docs : gmap string (option jsobject)) (w : world) : world :=
  World (<[collectionName := docs]> (store w)) (clock w) (next_ident w)
        (calls w).

(** Modelled from the spec: the repository function [createDocument] of
    ../repositories/firestoreRepository is not part of the sources.  It
    persists the record as a new document under a key the store assigns, one
    no document of the collection has, and returns that key. *)
Definition createDocument (collectionName : string) (data : jsobject)
  : Promise string :=
  fun w =>
    let w1 := record_call (CreateDocument collectionName data) w in
    let docs := collection collectionName w1 in
    let key : string := fresh (dom docs) in
    (Resolved key, put_collection collectionName (<[key := Some data]> docs) w1).

(** Modelled from the spec: [getDocuments] is not part of the sources.  It
    yields every document of the collection, in the store's order, each
    exposing its key and its data. *)
Definition getDocuments (collectionName : string)
  : Promise (list DocumentSnapshot) :=
  fun w =>
    let w1 := record_call (GetDocuments collectionName) w in
    (Resolved
       (map (fun kd => Snapshot kd.1 kd.2)
            (map_to_list (collection collectionName w1))),
     w1).

(** Modelled from the spec: [getDocumentById] is not part of the sources.
    It yields the document of that key, or [null] when there is none. *)
Definition getDocumentById (collectionName id : string)
  : Promise (option DocumentSnapshot) :=
  fun w =>
    let w1 := record_call (GetDocumentById collectionName id) w in
    (Resolved (Snapshot id <$> collection collectionName w1 !! id), w1).

(** Modelled from the spec: [updateDocument] is not part of the sources.  It
    takes the full record and overwrites the stored document of that key
    with it. *)
Definition updateDocument (collectionName id : string) (data : jsobject)
  : Promise unit :=
  fun w =>
    let w1 := record_call (UpdateDocument collectionName id data) w in
    (Resolved tt,
     put_collection collectionName
       (<[id := Some data]> (collection collectionName w1)) w1).

(** Modelled from the spec: [deleteDocument] is not part of the sources.  It
    removes the document of that key. *)
Definition deleteDocument (collectionName id : string) : Promise unit :=
  fun w =>
    let w1 := record_call (DeleteDocument collectionName id) w in
    (Resolved tt,
     put_collection collectionName
       (delete id (collection collectionName w1)) w1).

End Repository.

Export Repository.

(** ** The service *)

Module MoviesService.

Definition COLLECTION : string := "movies".

Definition not_found_message (id : string) : string :=
  "Movie with ID " ++ id ++ " not found".

(** [getAllMovies]: every document of the collection as
    [{ id: doc.id, ...data }]. *)
Definition getAllMovies : Promise (list jsobject) :=
  try_catch
    (snapshot <- getDocuments COLLECTION ;;
     movies <- map_promise
       (fun doc =>
          let data := doc_data doc in
          object_literal
            (copy_data_properties [("id", VStr (doc_id doc))] data))
       snapshot ;;
     ret movies)
    (fun error => throw error).

(** [getMovieById]. *)
Definition getMovieById (id : string) : Promise jsobject :=
  doc <- getDocumentById COLLECTION id ;;
  match doc with
  | None => throw (Error (not_found_message id))
  | Some doc =>
      let data := doc_data doc in
      movie <- object_literal
        (copy_data_properties [("id", VStr (doc_id doc))] data) ;;
      structuredClone movie
  end.

(** [createMovie]. *)
Definition createMovie (movieData : jsobject) : Promise jsobject :=
  dateNow <- new_Date ;;
  newMovie <- object_literal
    (set_prop "createdAt" dateNow
       (copy_data_properties [] (Some movieData))) ;;
  movieId <- createDocument COLLECTION newMovie ;;
  o <- object_literal
    (copy_data_properties [("id", VStr movieId)] (Some newMovie)) ;;
  structuredClone o.

(** The re-check [if (!movie) throw ...] of [updateMovie] and
    [deleteMovie]. *)
Definition recheck (id : string) (movie : jsobject) : Promise unit :=
  if negb (truthy (of_object movie))
  then throw (Error (not_found_message id))
  else ret tt.

(** [if (movieData.k !== undefined) o.k = movieData.k]. *)
Definition assign_if_defined (k : string) (movieData o : jsobject)
  : jsobject :=
  match js_get movieData k with
  | VUndefined => o
  | v => assign o k v
  end.

(** The three conditional assignments of [updateMovie], applied in place to
    the fetched record. *)
Definition apply_update (movieData movie : jsobject) : jsobject :=
  let updateMovie := movie in
  let updateMovie := assign_if_defined "title" movieData updateMovie in
  let updateMovie := assign_if_defined "description" movieData updateMovie in
  let updateMovie := assign_if_defined "genre" movieData updateMovie in
  updateMovie.

(** [updateMovie]. *)
Definition updateMovie (id : string) (movieData : jsobject)
  : Promise jsobject :=
  movie <- getMovieById id ;;
  recheck id movie ;;
  let updateMovie := apply_update movieData movie in
  updateDocument COLLECTION id updateMovie ;;
  structuredClone updateMovie.

(** [deleteMovie]. *)
Definition deleteMovie (id : string) : Promise unit :=
  movie <- getMovieById id ;;
  recheck id movie ;;
  deleteDocument COLLECTION id.

(** The documents of the movies collection. *)
Definition movies (w : world) : gmap string (option jsobject) :=
  collection COLLECTION w.

End MoviesService.

Export MoviesService.

(** ** Vocabulary of the properties *)

Module Props.

(** Structural induction over values, through the lists of array items and
    of object properties. *)
Section value_rect.
Variable P : value -> Prop.
Hypothesis Hundefined : P VUndefined.
Hypothesis Hnull : P VNull.
Hypothesis Hbool : forall b, P (VBool b).
Hypothesis Hnum : forall x, P (VNum x).
Hypothesis Hstr : forall s, P (VStr s).
Hypothesis Hdate : forall l ms, P (VDate l ms).
Hypothesis Harr : forall l items, Forall P items -> P (VArr l items).
Hypothesis Hobj :
  forall l ps, Forall (fun kv => P kv.2) ps -> P (VObj l ps).

Fixpoint value_nested_ind (v : value) : P v :=
  match v with
  | VUndefined => Hundefined
  | VNull => Hnull
  | VBool b => Hbool b
  | VNum x => Hnum x
  | VStr s => Hstr s
  | VDate l ms => Hdate l ms
  | VArr l items =>
      Harr l items
        ((fix go (xs : list value) : Forall P xs :=
            match xs with
            | [] => @List.Forall_nil _ P
            | x :: xs' =>
                @List.Forall_cons _ P x xs' (value_nested_ind x) (go xs')
            end) items)
  | VObj l ps =>
      Hobj l ps
        ((fix go (xs : props) : Forall (fun kv => P kv.2) xs :=
            match xs with
            | [] => @List.Forall_nil _ (fun kv => P kv.2)
            | kv :: xs' =>
                @List.Forall_cons _ (fun kv => P kv.2) kv xs'
                  (value_nested_ind kv.2) (go xs')
            end) ps)
  end.
End value_rect.

(** What a clone is: the same data, under identities from [n] up to the
    next unused one. *)
Definition clone_spec (v : value) : Prop :=
  forall n,
    strip (clone v n).1 = strip v
    /\ n <= (clone v n).2
    /\ Forall (fun l => n <= l < (clone v n).2) (idents (clone v n).1).

(** The properties of [{ id: doc.id, ...data }] for a document of key [id]
    whose [data()] is [data]. *)
Definition movie_props (id : string) (data : option jsobject) : props :=
  copy_data_properties [("id", VStr id)] data.

(** The record a found [getMovieById] resolves to, the clone of
    [{ id: doc.id, ...data }], with the next unused identity after it. *)
Definition fetched (id : string) (data : option jsobject) (w : world)
  : jsobject * loc :=
  clone_object (Obj (next_ident w) (movie_props id data)) (S (next_ident w)).

(** What a settled promise resolved to, if it did. *)
Definition resolved {A} (r : outcome A * world) : option A :=
  match r.1 with
  | Resolved a => Some a
  | Rejected _ => None
  end.

(** A message mentions an id when the id occurs in it. *)
Definition mentions (message id : string) : Prop :=
  exists pre post : string, message = pre ++ id ++ post.

(** The input of [createMovie] as its parameter type declares it. *)
Record NewMovie := {
  title : string;
  description : string;
  genre : string;
  rating : option Q
}.

Definition movieData_props (m : NewMovie) : props :=
  [("title", VStr (title m));
   ("description", VStr (description m));
   ("genre", VStr (genre m))]
  ++ match rating m with
     | Some r => [("rating", VNum r)]
     | None => []
     end.

(** The fields of the in-memory [Movie] shape. *)
Definition Movie_shape : list string :=
  ["id"; "title"; "description"; "genre"; "rating"; "createdAt"].

Definition is_undefined (v : value) : bool :=
  match v with
  | VUndefined => true
  | _ => false
  end.

(** The fields [updateMovie] applies: those of title, description and genre
    that [movieData] holds a value other than [undefined] for. *)
Definition applied (movieData : jsobject) (k : string) : bool :=
  bool_decide (k ∈ ["title"; "description"; "genre"])
  && negb (is_undefined (js_get movieData k)).

(** The stored document of a key after a run, when it has data. *)
Definition stored_after {A} (r : outcome A * world) (id : string)
  : option jsobject :=
  mjoin (movies r.2 !! id).

(** The reading of an update as a write that drops every stored field
    outside the [Movie] shape. *)
Definition drops_unknown_fields (id : string) (movieData : jsobject)
    (w : world) : Prop :=
  forall stored k,
    stored_after (updateMovie id movieData w) id = Some stored ->
    k ∉ Movie_shape ->
    get_prop k (own stored) = None.

(** An identity is held by the store client when it occurs in a stored
    document or in a record some repository call was given. *)
Definition call_data (c : call) : option jsobject :=
  match c with
  | CreateDocument _ data | UpdateDocument _ _ data => Some data
  | _ => None
  end.

Definition held (w : world) (l : loc) : Prop :=
  (exists c docs key o,
      store w !! c = Some docs /\ docs !! key = Some (Some o)
      /\ l ∈ idents_object o)
  \/ (exists c o, c ∈ calls w /\ call_data c = Some o /\ l ∈ idents_object o).

(** Every held identity has been taken. *)
Definition world_ok (w : world) : Prop :=
  forall l, held w l -> l < next_ident w.

(** Every identity of the list is below [n]. *)
Definition below (n : loc) (ls : list loc) : Prop :=
  Forall (fun l => l < n) ls.

(** A returned object is independent of the world when none of its
    identities is held. *)
Definition independent (o : jsobject) (w : world) : Prop :=
  forall l, l ∈ idents_object o -> ~ held w l.

(** [d.setTime(t)] on the date object of identity [l], as seen through
    every value that reaches it. *)
Fixpoint set_time (l : loc) (t : Z) (v : value) : value :=
  match v with
  | VDate l' ms => if decide (l = l') then VDate l' t else v
  | VArr l' items => VArr l' (map (set_time l t) items)
  | VObj l' ps => VObj l' (map (fun kv => (kv.1, set_time l t kv.2)) ps)
  | _ => v
  end.

Definition set_time_object (l : loc) (t : Z) (o : jsobject) : jsobject :=
  Obj (ident o) (map (fun kv => (kv.1, set_time l t kv.2)) (own o)).

Definition set_time_docs (l : loc) (t : Z)
    (docs : gmap string (option jsobject)) : gmap string (option jsobject) :=
  (fun d : option jsobject => set_time_object l t <$> d) <$> docs.

Definition set_time_world (l : loc) (t : Z) (w : world) : world :=
  World (set_time_docs l t <$> store w) (clock w) (next_ident w) (calls w).

End Props.

Export Props.

(** ** Sample data *)

Module Samples.

Definition dune : jsobject :=
  Obj 1 [("title", VStr "Dune");
         ("description", VStr "Desert planet");
         ("genre", VStr "Sci-Fi");
         ("rating", VNum (17 # 2));
         ("createdAt", VDate 2 1000);
         ("director", VStr "Villeneuve")].

(** A document whose data has an [id] field of its own. *)
Definition relabelled : jsobject :=
  Obj 3 [("id", VStr "other"); ("title", VStr "Arrival")].

(** Three documents: a full one, one with its own [id] field, and one whose
    data is [undefined]. *)
Definition sample_world : world :=
  World
    {[ "movies" :=
         <["m1" := Some dune]>
           (<["m2" := Some relabelled]> (<["m3" := None]> ∅)) ]}
    5000 10 [].

Definition only_title : jsobject := Obj 4 [("title", VStr "X")].

Definition dune_input : NewMovie :=
  {| title := "Dune"; description := "Desert planet"; genre := "Sci-Fi";
     rating := Some (17 # 2) |}.

End Samples.

Export Samples.

(** A world whose movies collection has no document. *)
Definition empty_world : world := World ∅ 0 0 [].

(** ** Properties of objects: lookup, definition, spread *)

Section object_facts.
Implicit Types (k : string) (v : value) (ps : props).

Lemma get_prop_set_prop_eq k v ps : get_prop k (set_prop k v ps) = Some v.
Proof.
  induction ps as [|[k' v'] ps IH]; simpl.
  - destruct (decide (k = k)); done.
  - destruct (decide (k = k')) as [->|Hne]; simpl.
    + destruct (decide (k' = k')); done.
    + destruct (decide (k = k')); done.
Qed.

Lemma get_prop_set_prop_ne k k' v ps :
  k ≠ k' -> get_prop k' (set_prop k v ps) = get_prop k' ps.
Proof.
  intros Hne. induction ps as [|[k0 v0] ps IH]; simpl.
  - destruct (decide (k' = k)); [congruence | done].
  - destruct (decide (k = k0)) as [->|Hk]; simpl.
    + destruct (decide (k' = k0)); [congruence | done].
    + destruct (decide (k' = k0)); [done | apply IH].
Qed.

Lemma get_prop_None k ps : get_prop k ps = None <-> k ∉ ps.*1.
Proof.
  induction ps as [|[k' v'] ps IH]; simpl.
  - split; [intros _; apply not_elem_of_nil | done].
  - rewrite not_elem_of_cons. destruct (decide (k = k')) as [->|Hne].
    + split; [done | intros [? _]; done].
    + rewrite IH. tauto.
Qed.

Lemma get_prop_own_keys k ps : k ∈ own_keys ps <-> is_Some (get_prop k ps).
Proof.
  unfold own_keys. rewrite elem_of_remove_dups.
  destruct (get_prop k ps) as [v|] eqn:Hget.
  - split; [eauto | intros _].
    destruct (decide (k ∈ ps.*1)) as [|Hn]; [done |].
    apply get_prop_None in Hn. congruence.
  - apply get_prop_None in Hget. split; [done |].
    intros [? ?]; done.
Qed.

(** One step of the spread, over any list of keys. *)
Lemma get_prop_copy_step k (src : props) (ks : list string) (acc : props) :
  get_prop k
    (fold_left
       (fun acc k0 =>
          match get_prop k0 src with
          | Some v => set_prop k0 v acc
          | None => acc
          end) ks acc)
  = if decide (k ∈ ks)
    then match get_prop k src with
         | Some v => Some v
         | None => get_prop k acc
         end
    else get_prop k acc.
Proof.
  revert acc. induction ks as [|k0 ks IH]; intros acc; cbn [fold_left].
  - destruct (decide (k ∈ [])) as [Hin|]; [|done].
    by apply elem_of_nil in Hin.
  - rewrite IH. destruct (decide (k = k0)) as [->|Hne].
    + destruct (decide (k0 ∈ k0 :: ks)) as [_|Hn];
        [|exfalso; apply Hn, elem_of_cons; by left].
      destruct (get_prop k0 src) as [v|] eqn:Hsrc.
      * rewrite get_prop_set_prop_eq. by destruct (decide (k0 ∈ ks)).
      * by destruct (decide (k0 ∈ ks)).
    + assert (Hacc :
        get_prop k
          match get_prop k0 src with
          | Some v => set_prop k0 v acc
          | None => acc
          end = get_prop k acc).
      { destruct (get_prop k0 src); [|done].
        by apply get_prop_set_prop_ne. }
      rewrite Hacc.
      destruct (decide (k ∈ ks)) as [Hin|Hnin];
        destruct (decide (k ∈ k0 :: ks)) as [Hin'|Hnin']; try done.
      * exfalso. apply Hnin', elem_of_cons. by right.
      * exfalso. apply elem_of_cons in Hin' as [?|?]; done.
Qed.

(** A property of [{ ...target, ...source }] is the source's when the
    source has it, the target's otherwise. *)
Lemma get_prop_copy_data_properties k (target : props) (src : jsobject) :
  get_prop k (copy_data_properties target (Some src))
  = match get_prop k (own src) with
    | Some v => Some v
    | None => get_prop k target
    end.
Proof.
  unfold copy_data_properties. rewrite get_prop_copy_step.
  destruct (decide (k ∈ own_keys (own src))) as [Hin|Hnin]; [done |].
  destruct (get_prop k (own src)) as [v|] eqn:Hget; [|done].
  exfalso. apply Hnin, get_prop_own_keys. eauto.
Qed.

Lemma get_prop_strip_props k ps :
  get_prop k (strip_props ps) = strip <$> get_prop k ps.
Proof.
  induction ps as [|[k' v'] ps IH]; simpl; [done |].
  destruct (decide (k = k')); [done | apply IH].
Qed.

Lemma same_fields_get k ps qs :
  same_fields ps qs ->
  same_data (default VUndefined (get_prop k ps))
            (default VUndefined (get_prop k qs)).
Proof.
  unfold same_fields, same_data. intros Heq.
  assert (H : strip <$> get_prop k ps = strip <$> get_prop k qs).
  { by rewrite <- !get_prop_strip_props, Heq. }
  destruct (get_prop k ps), (get_prop k qs); simpl in *; congruence.
Qed.
End object_facts.

(** ** Properties of [structuredClone] *)

Section clone_facts.
Implicit Types (v : value) (n m l : loc) (ps : props).

Lemma clone_VArr l items n :
  clone (VArr l items) n
  = let '(items', n') := clone_items items (S n) in (VArr n items', n').
Proof.
  simpl. set (go := fix go (xs : list value) (m : loc) := _).
  assert (H : forall xs m, go xs m = clone_items xs m).
  { induction xs as [|x xs IH]; intros m; simpl; [done |].
    destruct (clone x m) as [x' m1]. by rewrite IH. }
  by rewrite H.
Qed.

Lemma clone_VObj l ps n :
  clone (VObj l ps) n
  = let '(ps', n') := clone_props ps (S n) in (VObj n ps', n').
Proof.
  simpl. set (go := fix go (xs : props) (m : loc) := _).
  assert (H : forall xs m, go xs m = clone_props xs m).
  { induction xs as [|[k x] xs IH]; intros m; simpl; [done |].
    destruct (clone x m) as [x' m1]. by rewrite IH. }
  by rewrite H.
Qed.

Lemma clone_items_spec items :
  Forall clone_spec items ->
  forall m,
    map strip (clone_items items m).1 = map strip items
    /\ m <= (clone_items items m).2
    /\ Forall (fun l => m <= l < (clone_items items m).2)
         (flat_map idents (clone_items items m).1).
Proof.
  induction 1 as [|x xs Hx _ IH]; intros m; simpl.
  - split_and!; [done | lia | constructor].
  - destruct (Hx m) as (Hs & Hle & Hid).
    destruct (clone x m) as [x' m1]; simpl in *.
    destruct (IH m1) as (Hs' & Hle' & Hid').
    destruct (clone_items xs m1) as [xs' m2]; simpl in *.
    split_and!; [by rewrite Hs, Hs' | lia |].
    apply Forall_app; split.
    + eapply Forall_impl; [exact Hid | intros; simpl in *; lia].
    + eapply Forall_impl; [exact Hid' | intros; simpl in *; lia].
Qed.

Lemma clone_props_spec_aux ps :
  Forall (fun kv => clone_spec kv.2) ps ->
  forall m,
    strip_props (clone_props ps m).1 = strip_props ps
    /\ m <= (clone_props ps m).2
    /\ Forall (fun l => m <= l < (clone_props ps m).2)
         (idents_props (clone_props ps m).1).
Proof.
  induction 1 as [|[k x] xs Hx _ IH]; intros m; simpl.
  - split_and!; [done | lia | constructor].
  - destruct (Hx m) as (Hs & Hle & Hid). simpl in *.
    destruct (clone x m) as [x' m1]; simpl in *.
    destruct (IH m1) as (Hs' & Hle' & Hid').
    destruct (clone_props xs m1) as [xs' m2]; simpl in *.
    split_and!; [by rewrite Hs, Hs' | lia |].
    apply Forall_app; split.
    + eapply Forall_impl; [exact Hid | intros; simpl in *; lia].
    + eapply Forall_impl; [exact Hid' | intros; simpl in *; lia].
Qed.

Lemma clone_correct v : clone_spec v.
Proof.
  induction v as [| | | | | l ms | l items IH | l ps IH]
    using value_nested_ind; intros n.
  1-5: by (simpl; split_and!; [done | lia | constructor]).
  - simpl. split_and!; [done | lia |]. repeat constructor; lia.
  - rewrite clone_VArr.
    destruct (clone_items_spec items IH (S n)) as (Hs & Hle & Hid).
    destruct (clone_items items (S n)) as [items' n']; simpl in *.
    split_and!; [by rewrite Hs | lia |].
    apply Forall_cons; split; [lia |].
    eapply Forall_impl; [exact Hid | intros; simpl in *; lia].
  - rewrite clone_VObj.
    destruct (clone_props_spec_aux ps IH (S n)) as (Hs & Hle & Hid).
    destruct (clone_props ps (S n)) as [ps' n']; simpl in *.
    split_and!; [by unfold strip_props in Hs; rewrite Hs | lia |].
    apply Forall_cons; split; [lia |].
    eapply Forall_impl; [exact Hid | intros; simpl in *; lia].
Qed.

Lemma clone_props_spec ps m :
  strip_props (clone_props ps m).1 = strip_props ps
  /\ m <= (clone_props ps m).2
  /\ Forall (fun l => m <= l < (clone_props ps m).2)
       (idents_props (clone_props ps m).1).
Proof.
  apply clone_props_spec_aux, Forall_forall. intros ? _. apply clone_correct.
Qed.

(** [structuredClone] of an object: same fields, all identities new. *)
Lemma clone_object_spec (o : jsobject) n :
  ident (clone_object o n).1 = n
  /\ same_fields (own (clone_object o n).1) (own o)
  /\ n < (clone_object o n).2
  /\ Forall (fun l => n <= l < (clone_object o n).2)
       (idents_object (clone_object o n).1).
Proof.
  unfold clone_object, same_fields.
  destruct (clone_props_spec (own o) (S n)) as (Hs & Hle & Hid).
  destruct (clone_props (own o) (S n)) as [ps' n']; simpl in *.
  split_and!; [done | done | lia |].
  unfold idents_object; simpl. apply Forall_cons; split; [lia |].
  eapply Forall_impl; [exact Hid | intros; simpl in *; lia].
Qed.
End clone_facts.

(** ** Runs of the repository and of the service *)

Section runs.
Implicit Types (id k : string) (w : world) (o movie movieData : jsobject)
  (data : option jsobject).

Lemma collection_record_call c call w :
  collection c (record_call call w) = collection c w.
Proof. reflexivity. Qed.

Lemma collection_insert c docs st t n cs :
  collection c (World (<[c := docs]> st) t n cs) = docs.
Proof. unfold collection; simpl. by rewrite lookup_insert_eq. Qed.

Lemma getMovieById_absent id w :
  movies w !! id = None ->
  getMovieById id w
  = (Rejected (Error (not_found_message id)),
     record_call (GetDocumentById COLLECTION id) w).
Proof.
  intros Hnone. unfold getMovieById, bind, getDocumentById.
  rewrite collection_record_call. unfold movies in Hnone.
  by rewrite Hnone.
Qed.

Lemma getMovieById_present id w data :
  movies w !! id = Some data ->
  getMovieById id w
  = (Resolved (fetched id data w).1,
     World (store w) (clock w) (fetched id data w).2
           (calls w ++ [GetDocumentById COLLECTION id])).
Proof.
  intros Hsome. unfold getMovieById, bind, getDocumentById.
  rewrite collection_record_call. unfold movies in Hsome.
  rewrite Hsome. simpl. unfold structuredClone, fetched, movie_props; simpl.
  by destruct (clone_object _ _).
Qed.

Lemma recheck_passes id movie w : recheck id movie w = (Resolved tt, w).
Proof. reflexivity. Qed.

Lemma updateMovie_absent id movieData w :
  movies w !! id = None ->
  updateMovie id movieData w
  = (Rejected (Error (not_found_message id)),
     record_call (GetDocumentById COLLECTION id) w).
Proof.
  intros Hnone. unfold updateMovie, bind at 1.
  by rewrite (getMovieById_absent _ _ Hnone).
Qed.

Lemma updateMovie_present id movieData w data :
  movies w !! id = Some data ->
  let merged := apply_update movieData (fetched id data w).1 in
  updateMovie id movieData w
  = (Resolved (clone_object merged (fetched id data w).2).1,
     World (<[COLLECTION := <[id := Some merged]> (movies w)]> (store w))
           (clock w)
           (clone_object merged (fetched id data w).2).2
           (calls w ++ [GetDocumentById COLLECTION id;
                        UpdateDocument COLLECTION id merged])).
Proof.
  intros Hsome merged. unfold updateMovie, bind at 1.
  rewrite (getMovieById_present _ _ _ Hsome).
  unfold bind, recheck, updateDocument, structuredClone; simpl.
  fold merged. unfold put_collection, record_call, collection, movies; simpl.
  destruct (clone_object merged _). by rewrite <- app_assoc.
Qed.

Lemma deleteMovie_absent id w :
  movies w !! id = None ->
  deleteMovie id w
  = (Rejected (Error (not_found_message id)),
     record_call (GetDocumentById COLLECTION id) w).
Proof.
  intros Hnone. unfold deleteMovie, bind at 1.
  by rewrite (getMovieById_absent _ _ Hnone).
Qed.

Lemma deleteMovie_present id w data :
  movies w !! id = Some data ->
  deleteMovie id w
  = (Resolved tt,
     World (<[COLLECTION := delete id (movies w)]> (store w))
           (clock w) (fetched id data w).2
           (calls w ++ [GetDocumentById COLLECTION id;
                        DeleteDocument COLLECTION id])).
Proof.
  intros Hsome. unfold deleteMovie, bind at 1.
  rewrite (getMovieById_present _ _ _ Hsome).
  unfold bind, recheck, deleteDocument; simpl.
  unfold put_collection, record_call, collection, movies; simpl.
  by rewrite <- app_assoc.
Qed.
End runs.

(** ** The merge of [updateMovie] and what a fetched record holds *)

Section merge.
Implicit Types (id k : string) (w : world) (o movie movieData : jsobject)
  (data : option jsobject).

Lemma get_prop_assign_if_defined k movieData o k' :
  get_prop k' (own (assign_if_defined k movieData o))
  = if bool_decide (k' = k) && negb (is_undefined (js_get movieData k))
    then Some (js_get movieData k)
    else get_prop k' (own o).
Proof.
  unfold assign_if_defined.
  destruct (decide (k' = k)) as [->|Hne].
  - rewrite bool_decide_eq_true_2 by done. simpl.
    destruct (js_get movieData k) eqn:Hv; simpl; try done;
      by rewrite get_prop_set_prop_eq.
  - rewrite bool_decide_eq_false_2 by done. simpl.
    destruct (js_get movieData k) eqn:Hv; simpl; try done;
      by rewrite get_prop_set_prop_ne by done.
Qed.

Lemma get_prop_apply_update movieData o k :
  get_prop k (own (apply_update movieData o))
  = if applied movieData k then Some (js_get movieData k)
    else get_prop k (own o).
Proof.
  unfold apply_update, applied. rewrite !get_prop_assign_if_defined.
  destruct (decide (k = "genre")) as [->|Hg].
  { simpl. by destruct (is_undefined (js_get movieData "genre")). }
  destruct (decide (k = "description")) as [->|Hd].
  { simpl. by destruct (is_undefined (js_get movieData "description")). }
  destruct (decide (k = "title")) as [->|Ht].
  { simpl. by destruct (is_undefined (js_get movieData "title")). }
  rewrite !(bool_decide_eq_false_2 (k = _)) by done. simpl.
  rewrite bool_decide_eq_false_2; [done |].
  rewrite !elem_of_cons, elem_of_nil. tauto.
Qed.

Lemma get_prop_clone_object o n k :
  strip <$> get_prop k (own (clone_object o n).1)
  = strip <$> get_prop k (own o).
Proof.
  destruct (clone_object_spec o n) as (_ & Hs & _).
  unfold same_fields in Hs. by rewrite <- !get_prop_strip_props, Hs.
Qed.

Lemma get_prop_movie_props id data k :
  get_prop k (movie_props id data)
  = match data ≫= (fun d => get_prop k (own d)) with
    | Some v => Some v
    | None => if decide (k = "id") then Some (VStr id) else None
    end.
Proof.
  unfold movie_props. destruct data as [d|].
  - rewrite get_prop_copy_data_properties. simpl.
    by destruct (get_prop k (own d)).
  - done.
Qed.

(** The fetched record holds the data of the stored document, and the
    document key as [id] unless the data has an [id] of its own. *)
Lemma get_prop_fetched id data w k :
  strip <$> get_prop k (own (fetched id data w).1)
  = strip <$>
      match data ≫= (fun d => get_prop k (own d)) with
      | Some v => Some v
      | None => if decide (k = "id") then Some (VStr id) else None
      end.
Proof.
  unfold fetched. rewrite get_prop_clone_object. simpl.
  by rewrite get_prop_movie_props.
Qed.

Lemma js_get_apply_update movieData o k :
  js_get (apply_update movieData o) k
  = if applied movieData k then js_get movieData k else js_get o k.
Proof.
  unfold js_get at 1 3. rewrite get_prop_apply_update.
  by destruct (applied movieData k).
Qed.

Lemma js_get_clone_object o n k :
  same_data (js_get (clone_object o n).1 k) (js_get o k).
Proof.
  destruct (clone_object_spec o n) as (_ & Hs & _).
  unfold js_get. by apply same_fields_get.
Qed.
End merge.

Section create.
Implicit Types (id k : string) (w : world) (o movie movieData : jsobject).

(** The record [createMovie] hands to the store, and the one it clones. *)
Lemma createMovie_run movieData w :
  let n := next_ident w in
  let newMovie :=
    Obj (S n)
      (set_prop "createdAt" (VDate n (clock w))
         (copy_data_properties [] (Some movieData))) in
  let key : string := fresh (dom (movies w)) in
  let o :=
    Obj (S (S n))
      (copy_data_properties [("id", VStr key)] (Some newMovie)) in
  createMovie movieData w
  = (Resolved (clone_object o (S (S (S n)))).1,
     World (<[COLLECTION := <[key := Some newMovie]> (movies w)]> (store w))
           (clock w)
           (clone_object o (S (S (S n)))).2
           (calls w ++ [CreateDocument COLLECTION newMovie])).
Proof.
  intros n newMovie key o.
  unfold createMovie, bind, new_Date, object_literal, bind, alloc, ret,
    createDocument, structuredClone; simpl.
  subst n newMovie key o.
  unfold put_collection, record_call, collection, movies,
    copy_data_properties; simpl.
  by destruct (clone_object _ _).
Qed.

Lemma spread_movieData (m : NewMovie) l :
  copy_data_properties [] (Some (Obj l (movieData_props m)))
  = movieData_props m.
Proof. destruct m as [t d g [r|]]; reflexivity. Qed.

End create.

(** ** getMovieById *)

(** C2: [getMovieById id] on an id with no document rejects with the error
    whose message is "Movie with ID <id> not found", which mentions the id;
    on an id whose document exists it resolves to a movie, so raises no
    such error. *)
Theorem getMovieById_not_found_iff_absent (id : string) (w : world) :
  match movies w !! id with
  | None =>
      getMovieById id w
      = (Rejected (Error (not_found_message id)),
         record_call (GetDocumentById COLLECTION id) w)
      /\ mentions (not_found_message id) id
  | Some _ =>
      exists movie w', getMovieById id w = (Resolved movie, w')
  end.
Proof.
  destruct (movies w !! id) as [data|] eqn:Hdoc.
  - rewrite (getMovieById_present _ _ _ Hdoc). eauto.
  - split; [by apply getMovieById_absent |].
    by exists "Movie with ID ", " not found".
Qed.

(** C10: whether [getMovieById] rejects depends on the snapshot alone: for a
    document that exists and whose [data()] is [undefined] it resolves, to a
    movie that holds the [id] field and nothing else. *)
Theorem getMovieById_undefined_data (id : string) (w : world) :
  movies w !! id = Some None ->
  exists l w',
    getMovieById id w = (Resolved (Obj l [("id", VStr id)]), w').
Proof.
  intros Hdoc. rewrite (getMovieById_present _ _ _ Hdoc). eauto.
Qed.

Lemma getMovieById_undefined_data_witness :
  movies sample_world !! "m3" = Some None
  /\ exists l w',
       getMovieById "m3" sample_world
       = (Resolved (Obj l [("id", VStr "m3")]), w').
Proof.
  split; [reflexivity |].
  apply (getMovieById_undefined_data "m3" sample_world). reflexivity.
Defined.

(** ** updateMovie *)

(** C5: [updateMovie] on an id with no document rejects with the not-found
    error and writes nothing: the store is as before, and the only call the
    repository received is the lookup. *)
Theorem updateMovie_absent_no_write (id : string) (movieData : jsobject)
    (w : world) :
  movies w !! id = None ->
  let r := updateMovie id movieData w in
  r.1 = Rejected (Error (not_found_message id))
  /\ store r.2 = store w
  /\ calls r.2 = (calls w ++ [GetDocumentById COLLECTION id])%list.
Proof.
  intros Hdoc r. subst r. by rewrite (updateMovie_absent _ _ _ Hdoc).
Qed.

Lemma updateMovie_absent_no_write_witness :
  movies sample_world !! "m9" = None
  /\ (updateMovie "m9" only_title sample_world).1
     = Rejected (Error (not_found_message "m9"))
  /\ store (updateMovie "m9" only_title sample_world).2 = store sample_world
  /\ calls (updateMovie "m9" only_title sample_world).2
     = (calls sample_world ++ [GetDocumentById COLLECTION "m9"])%list.
Proof.
  split; [reflexivity |].
  apply (updateMovie_absent_no_write "m9" only_title sample_world).
  reflexivity.
Defined.

(** What an update of an existing document settles to: the merged record
    is the fetched one with the applied fields overwritten, the store holds
    it, and the result is a clone of it. *)
Lemma updateMovie_merge (id : string) (movieData : jsobject) (w : world)
    (data : option jsobject) :
  movies w !! id = Some data ->
  exists current merged updated w',
    resolved (getMovieById id w) = Some current
    /\ updateMovie id movieData w = (Resolved updated, w')
    /\ w' = World (<[COLLECTION := <[id := Some merged]> (movies w)]> (store w))
              (clock w) (next_ident w')
              (calls w ++ [GetDocumentById COLLECTION id;
                           UpdateDocument COLLECTION id merged])
    /\ merged = apply_update movieData current
    /\ same_fields (own updated) (own merged)
    /\ forall k,
         strip <$> get_prop k (own current)
         = strip <$>
             match data ≫= (fun d => get_prop k (own d)) with
             | Some v => Some v
             | None => if decide (k = "id") then Some (VStr id) else None
             end.
Proof.
  intros Hdoc.
  exists (fetched id data w).1, (apply_update movieData (fetched id data w).1).
  eexists _, _. split_and!.
  - by rewrite (getMovieById_present _ _ _ Hdoc).
  - apply (updateMovie_present _ _ _ _ Hdoc).
  - done.
  - done.
  - apply clone_object_spec.
  - intros k. apply get_prop_fetched.
Qed.

(** C4: [updateMovie] on an existing id applies onto the fetched current
    record exactly those of title, description and genre that [movieData]
    holds a value other than [undefined] for; every other field of the
    record, in the stored document and in the result alike, holds what the
    fetched record held. *)
Theorem updateMovie_applies_present_fields (id : string)
    (movieData : jsobject) (w : world) (data : option jsobject) :
  movies w !! id = Some data ->
  exists current stored updated w',
    resolved (getMovieById id w) = Some current
    /\ updateMovie id movieData w = (Resolved updated, w')
    /\ movies w' !! id = Some (Some stored)
    /\ forall k,
         js_get stored k
         = (if applied movieData k then js_get movieData k
            else js_get current k)
         /\ same_data (js_get updated k) (js_get stored k).
Proof.
  intros Hdoc.
  destruct (updateMovie_merge id movieData w data Hdoc)
    as (current & merged & updated & w' & Hcur & Hrun & Hw' & -> & Hs & _).
  exists current, (apply_update movieData current), updated, w'.
  split_and!; [done | done | |].
  - rewrite Hw'. unfold movies at 1.
    rewrite collection_insert. apply lookup_insert_eq.
  - intros k. split; [apply js_get_apply_update |].
    unfold js_get. by apply same_fields_get.
Qed.

Lemma updateMovie_applies_present_fields_witness :
  movies sample_world !! "m1" = Some (Some dune)
  /\ exists current stored updated w',
       resolved (getMovieById "m1" sample_world) = Some current
       /\ updateMovie "m1" only_title sample_world = (Resolved updated, w')
       /\ movies w' !! "m1" = Some (Some stored)
       /\ forall k,
            js_get stored k
            = (if applied only_title k then js_get only_title k
               else js_get current k)
            /\ same_data (js_get updated k) (js_get stored k).
Proof.
  split; [reflexivity |].
  apply (updateMovie_applies_present_fields "m1" only_title sample_world
           (Some dune)).
  reflexivity.
Defined.

(** [updateMovie id { title: x }] changes the title and no other field. *)
Lemma updateMovie_only_title (id x : string) (l : loc) (w : world)
    (data : option jsobject) :
  movies w !! id = Some data ->
  exists current updated w',
    resolved (getMovieById id w) = Some current
    /\ updateMovie id (Obj l [("title", VStr x)]) w = (Resolved updated, w')
    /\ js_get updated "title" = VStr x
    /\ forall k, k ≠ "title" -> same_data (js_get updated k) (js_get current k).
Proof.
  intros Hdoc.
  destruct (updateMovie_merge id (Obj l [("title", VStr x)]) w data Hdoc)
    as (current & merged & updated & w' & Hcur & Hrun & _ & -> & Hs & _).
  exists current, updated, w'. split_and!; [done | done | |].
  - pose proof (same_fields_get "title" _ _ Hs) as Ht.
    fold (js_get updated "title") in Ht.
    fold (js_get (apply_update (Obj l [("title", VStr x)]) current) "title")
      in Ht.
    rewrite js_get_apply_update in Ht. unfold same_data in Ht. simpl in Ht.
    by destruct (js_get updated "title").
  - intros k Hk. pose proof (same_fields_get k _ _ Hs) as Ht.
    fold (js_get updated k) in Ht.
    fold (js_get (apply_update (Obj l [("title", VStr x)]) current) k) in Ht.
    rewrite js_get_apply_update in Ht.
    assert (Hno : applied (Obj l [("title", VStr x)]) k = false).
    { unfold applied, js_get; simpl.
      destruct (decide (k = "title")); [done |]. simpl.
      by rewrite andb_false_r. }
    by rewrite Hno in Ht.
Qed.

(** ** The stored document after an update *)

(** C7, as the code has it: [updateMovie] on an existing id hands the store
    the merged in-memory record as the full document, and that record holds
    every field the stored document had, in or out of the [Movie] shape,
    the applied ones overwritten: no stored field is dropped. *)
Theorem updateMovie_keeps_every_stored_field (id : string)
    (movieData : jsobject) (w : world) (d : jsobject) :
  movies w !! id = Some (Some d) ->
  exists merged,
    stored_after (updateMovie id movieData w) id = Some merged
    /\ calls (updateMovie id movieData w).2
       = (calls w ++ [GetDocumentById COLLECTION id;
                      UpdateDocument COLLECTION id merged])%list
    /\ forall k v,
         get_prop k (own d) = Some v ->
         exists v',
           get_prop k (own merged) = Some v'
           /\ same_data v'
                (if applied movieData k then js_get movieData k else v).
Proof.
  intros Hdoc.
  destruct (updateMovie_merge id movieData w (Some d) Hdoc)
    as (current & merged & updated & w' & _ & Hrun & Hw' & -> & _ & Hcur).
  exists (apply_update movieData current). rewrite Hrun. split_and!.
  - unfold stored_after; simpl. rewrite Hw'. unfold movies at 1.
    rewrite collection_insert. by rewrite lookup_insert_eq.
  - simpl. by rewrite Hw'.
  - intros k v Hk. rewrite get_prop_apply_update.
    destruct (applied movieData k); [by eexists |].
    specialize (Hcur k). simpl in Hcur. rewrite Hk in Hcur.
    destruct (get_prop k (own current)) as [v'|]; [|done].
    exists v'. split; [done |]. unfold same_data. by injection Hcur.
Qed.

Lemma updateMovie_keeps_every_stored_field_witness :
  movies sample_world !! "m1" = Some (Some dune)
  /\ exists merged,
       stored_after (updateMovie "m1" only_title sample_world) "m1"
       = Some merged
       /\ calls (updateMovie "m1" only_title sample_world).2
          = (calls sample_world ++ [GetDocumentById COLLECTION "m1";
                                    UpdateDocument COLLECTION "m1" merged])%list
       /\ forall k v,
            get_prop k (own dune) = Some v ->
            exists v',
              get_prop k (own merged) = Some v'
              /\ same_data v'
                   (if applied only_title k then js_get only_title k else v).
Proof.
  split; [reflexivity |].
  apply (updateMovie_keeps_every_stored_field "m1" only_title sample_world
           dune).
  reflexivity.
Defined.

(** C7, as stated, fails: the stored document "m1" has a [director] field,
    which is outside the [Movie] shape, and the document still has it after
    [updateMovie "m1" { title: "X" }]. *)
Lemma updateMovie_keeps_director :
  ~ drops_unknown_fields "m1" only_title sample_world.
Proof.
  intros Hdrop.
  destruct (stored_after (updateMovie "m1" only_title sample_world) "m1")
    as [stored|] eqn:Hstored; [|by vm_compute in Hstored].
  specialize (Hdrop stored "director" Hstored).
  vm_compute in Hstored. injection Hstored as <-.
  assert (Hout : "director" ∉ Movie_shape).
  { unfold Movie_shape. rewrite !not_elem_of_cons.
    split_and!; try done. apply not_elem_of_nil. }
  specialize (Hdrop Hout). by vm_compute in Hdrop.
Qed.

(** ** deleteMovie *)

(** C6: [deleteMovie] on an existing id asks the store to delete that id and
    resolves to nothing, after which [getMovieById] on the id rejects with
    the not-found error; on an id with no document it rejects with that
    error, and the repository receives the lookup and no deletion. *)
Theorem deleteMovie_deletes_or_rejects (id : string) (w : world) :
  match movies w !! id with
  | Some _ =>
      exists w',
        deleteMovie id w = (Resolved tt, w')
        /\ calls w'
           = (calls w ++ [GetDocumentById COLLECTION id;
                          DeleteDocument COLLECTION id])%list
        /\ (getMovieById id w').1 = Rejected (Error (not_found_message id))
  | None =>
      exists w',
        deleteMovie id w = (Rejected (Error (not_found_message id)), w')
        /\ store w' = store w
        /\ calls w' = (calls w ++ [GetDocumentById COLLECTION id])%list
  end.
Proof.
  destruct (movies w !! id) as [data|] eqn:Hdoc.
  - rewrite (deleteMovie_present _ _ _ Hdoc). eexists. split_and!; [done..|].
    rewrite getMovieById_absent; [done |].
    unfold movies at 1. rewrite collection_insert. apply lookup_delete_eq.
  - rewrite (deleteMovie_absent _ _ Hdoc). by eexists.
Qed.

(** ** createMovie *)

Lemma stamp_movieData (m : NewMovie) (d : value) :
  set_prop "createdAt" d (movieData_props m)
  = (movieData_props m ++ [("createdAt", d)])%list.
Proof. destruct m as [t ds g [r|]]; reflexivity. Qed.

Lemma spread_stamped (m : NewMovie) (d : value) (key : string) (l : loc) :
  copy_data_properties [("id", VStr key)]
    (Some (Obj l (movieData_props m ++ [("createdAt", d)])%list))
  = ("id", VStr key) :: (movieData_props m ++ [("createdAt", d)])%list.
Proof. destruct m as [t ds g [r|]]; reflexivity. Qed.

(** The key the store assigns is one no document has. *)
Lemma assigned_key_is_new (w : world) :
  movies w !! (fresh (dom (movies w)) : string) = None.
Proof. apply not_elem_of_dom, is_fresh. Qed.

(** Whatever the caller passes, the [createdAt] of the persisted document
    is the date the service made from the clock. *)
Lemma createMovie_createdAt_is_stamped (movieData : jsobject) (w : world) :
  (stored_after (createMovie movieData w) (fresh (dom (movies w))))
    ≫= (fun o => get_prop "createdAt" (own o))
  = Some (VDate (next_ident w) (clock w)).
Proof.
  rewrite createMovie_run. unfold stored_after; cbn [snd].
  unfold movies. rewrite collection_insert, lookup_insert_eq.
  cbn [mjoin option_join mbind option_bind own].
  apply get_prop_set_prop_eq.
Qed.

(** C3: for an input of the declared shape, [createMovie] persists, under a
    key the store assigns and no document had, a document whose fields are
    the input fields followed by [createdAt], the date read from the clock
    at the call; it resolves to a movie holding that key as [id] and the
    same fields. *)
Theorem createMovie_persists_stamped_input (m : NewMovie) (l : loc)
    (w : world) :
  let key : string := fresh (dom (movies w)) in
  let stamped : props :=
    (movieData_props m
       ++ [("createdAt", VDate (next_ident w) (clock w))])%list in
  exists movie w',
    createMovie (Obj l (movieData_props m)) w = (Resolved movie, w')
    /\ movies w !! key = None
    /\ movies w' = <[key := Some (Obj (S (next_ident w)) stamped)]> (movies w)
    /\ js_get movie "id" = VStr key
    /\ same_fields (own movie) (("id", VStr key) :: stamped).
Proof.
  intros key stamped. rewrite createMovie_run.
  rewrite spread_movieData, stamp_movieData, spread_stamped.
  fold key. fold stamped.
  eexists _, _. split_and!.
  - reflexivity.
  - apply assigned_key_is_new.
  - unfold key, movies. by rewrite collection_insert.
  - pose proof (js_get_clone_object
                  (Obj (S (S (next_ident w))) (("id", VStr key) :: stamped))
                  (S (S (S (next_ident w)))) "id") as Hid.
    unfold same_data in Hid.
    by destruct (js_get _ "id").
  - apply clone_object_spec.
Qed.

(** ** The id of a retrieved movie *)

(** The callback of [getAllMovies], run over the documents in order: one
    new object per document. *)
Lemma map_promise_object_literal {A} (f : A -> props) (xs : list A)
    (w : world) :
  map_promise (fun x => object_literal (f x)) xs w
  = (Resolved (imap (fun i x => Obj (next_ident w + i) (f x)) xs),
     World (store w) (clock w) (next_ident w + length xs) (calls w)).
Proof.
  revert w. induction xs as [|x xs IH]; intros w; simpl.
  - unfold ret. rewrite Nat.add_0_r. by destruct w.
  - unfold bind at 1. unfold object_literal at 1, bind at 1, alloc, ret.
    unfold bind at 1. rewrite IH. simpl.
    rewrite Nat.add_0_r. f_equal; [f_equal; f_equal|].
    + apply imap_ext. intros i y _. simpl. f_equal. lia.
    + f_equal. lia.
Qed.

Lemma getAllMovies_run (w : world) :
  getAllMovies w
  = (Resolved
       (imap (fun i kd => Obj (next_ident w + i) (movie_props kd.1 kd.2))
             (map_to_list (movies w))),
     World (store w) (clock w)
           (next_ident w + length (map_to_list (movies w)))
           (calls w ++ [GetDocuments COLLECTION])).
Proof.
  unfold getAllMovies, try_catch, bind at 1, getDocuments.
  rewrite collection_record_call.
  unfold bind at 1.
  rewrite (map_promise_object_literal
             (fun doc => copy_data_properties [("id", VStr (doc_id doc))]
                           (doc_data doc))).
  simpl. rewrite length_map. unfold ret. f_equal. f_equal.
  rewrite imap_fmap. by apply imap_ext.
Qed.

(** [getAllMovies] resolves to one movie per document, in the store's
    order, each with the properties of [{ id: doc.id, ...data }]. *)
Lemma getAllMovies_one_per_document (w : world) :
  exists ms w',
    getAllMovies w = (Resolved ms, w')
    /\ Forall2 (fun kd m => own m = movie_props kd.1 kd.2)
         (map_to_list (movies w)) ms.
Proof.
  rewrite getAllMovies_run. eexists _, _. split; [done |].
  generalize (next_ident w). intros n.
  induction (map_to_list (movies w)) as [|kd l IH] in n |- *.
  - constructor.
  - simpl. constructor; [done |].
    specialize (IH (S n)).
    erewrite imap_ext; [exact IH |]. intros i y _. simpl. f_equal. lia.
Qed.

(** When the stored data has no [id] field of its own, the movie's [id] is
    the document key. *)
Lemma getMovieById_id_is_key (id : string) (w : world)
    (data : option jsobject) :
  movies w !! id = Some data ->
  data ≫= (fun d => get_prop "id" (own d)) = None ->
  exists movie w',
    getMovieById id w = (Resolved movie, w') /\ js_get movie "id" = VStr id.
Proof.
  intros Hdoc Hnoid. rewrite (getMovieById_present _ _ _ Hdoc).
  eexists _, _. split; [done |].
  pose proof (get_prop_fetched id data w "id") as Hget.
  rewrite Hnoid in Hget. simpl in Hget. unfold js_get.
  destruct (get_prop "id" (own (fetched id data w).1)) as [v|]; [|done].
  simpl in *. injection Hget as Hv. by destruct v.
Qed.

(** C1, at a document whose data has an [id] field: the stored [id]
    replaces the document key, in [getMovieById] and in [getAllMovies]
    alike; the movie of document "m2" has the id "other". *)
Theorem stored_id_field_replaces_key :
  movies sample_world !! "m2" = Some (Some relabelled)
  /\ (fun m => js_get m "id") <$> resolved (getMovieById "m2" sample_world)
     = Some (VStr "other")
  /\ (map_to_list (movies sample_world)).*1 = ["m3"; "m1"; "m2"]
  /\ map (fun m => js_get m "id") <$> resolved (getAllMovies sample_world)
     = Some [VStr "m3"; VStr "m1"; VStr "other"].
Proof. split_and!; by vm_compute. Qed.

(** ** Identities: what a result shares with the store client *)

Section identities.
Implicit Types (k : string) (v : value) (ps : props) (n l : loc)
  (o movieData : jsobject) (w : world).

Lemma below_mono n m ls : n <= m -> below n ls -> below m ls.
Proof.
  intros Hle Hls. unfold below in *.
  eapply Forall_impl; [exact Hls | intros l Hl; simpl in *; lia].
Qed.

Lemma below_get_prop n k ps v :
  below n (idents_props ps) -> get_prop k ps = Some v -> below n (idents v).
Proof.
  unfold below, idents_props.
  induction ps as [|[k' v'] ps IH]; simpl; [done |].
  rewrite Forall_app. intros [Hv Hps].
  destruct (decide (k = k')); [by intros [= <-] | by apply IH].
Qed.

Lemma below_set_prop n k v ps :
  below n (idents v) -> below n (idents_props ps) ->
  below n (idents_props (set_prop k v ps)).
Proof.
  unfold below, idents_props. intros Hv.
  induction ps as [|[k' v'] ps IH]; simpl.
  - intros _. by rewrite app_nil_r.
  - rewrite Forall_app. intros [Hv' Hps].
    destruct (decide (k = k')); simpl; rewrite Forall_app; auto.
Qed.

Lemma below_copy_data_properties n (target : props)
    (source : option jsobject) :
  below n (idents_props target) ->
  (forall o, source = Some o -> below n (idents_props (own o))) ->
  below n (idents_props (copy_data_properties target source)).
Proof.
  intros Ht Hs. destruct source as [src|]; [|done].
  unfold copy_data_properties.
  specialize (Hs src eq_refl). revert target Ht.
  generalize (own_keys (own src)). intros ks.
  induction ks as [|k ks IH]; intros target Ht; [exact Ht |].
  simpl. apply IH.
  destruct (get_prop k (own src)) as [v|] eqn:Hk; [|done].
  apply below_set_prop; [|done]. exact (below_get_prop _ _ _ _ Hs Hk).
Qed.

Lemma below_assign_if_defined n k movieData o :
  below n (idents_props (own movieData)) ->
  below n (idents_object o) ->
  below n (idents_object (assign_if_defined k movieData o)).
Proof.
  intros Hm Ho. unfold assign_if_defined, js_get.
  destruct (get_prop k (own movieData)) as [v|] eqn:Hk; [|done].
  pose proof (below_get_prop _ _ _ _ Hm Hk) as Hv.
  unfold below, idents_object in *. apply Forall_cons in Ho as [Hi Hps].
  destruct v; simpl; apply Forall_cons; (split; [done |]);
    first [done | by apply below_set_prop].
Qed.

Lemma below_apply_update n movieData o :
  below n (idents_props (own movieData)) ->
  below n (idents_object o) ->
  below n (idents_object (apply_update movieData o)).
Proof.
  intros Hm Ho. unfold apply_update.
  by repeat apply below_assign_if_defined.
Qed.

(** The identities of a fetched record are new. *)
Lemma fetched_spec id data w :
  S (next_ident w) < (fetched id data w).2
  /\ Forall (fun l => S (next_ident w) <= l < (fetched id data w).2)
       (idents_object (fetched id data w).1).
Proof.
  unfold fetched.
  destruct (clone_object_spec (Obj (next_ident w) (movie_props id data))
              (S (next_ident w))) as (_ & _ & Hlt & Hid).
  done.
Qed.

(** Held identities after a call that leaves the store as it was and
    hands the repository no record. *)
Lemma held_after_read w t n cs l :
  (forall c, c ∈ cs -> call_data c = None) ->
  held (World (store w) t n (calls w ++ cs)) l -> held w l.
Proof.
  intros Hcs [Hstore|(c & o & Hin & Hdata & Hl)]; [by left |].
  simpl in Hin. apply elem_of_app in Hin as [Hin|Hin].
  - right. eauto.
  - rewrite (Hcs c Hin) in Hdata. done.
Qed.

(** Held identities after a call that writes the record [o] under a key
    and hands the repository the records of [cs]. *)
Lemma held_after_write w c key o t n cs bound l :
  (forall l', held w l' -> l' < bound) ->
  below bound (idents_object o) ->
  (forall c' o', c' ∈ cs -> call_data c' = Some o' ->
                 below bound (idents_object o')) ->
  held (World (<[c := <[key := Some o]> (collection c w)]> (store w))
              t n (calls w ++ cs)) l ->
  l < bound.
Proof.
  intros Hw Ho Hcs [(c' & docs & key' & o' & Hc & Hk & Hl)
                   |(c' & o' & Hin & Hdata & Hl)]; simpl in *.
  - apply lookup_insert_Some in Hc as [[<- <-]|[Hne Hc]].
    + apply lookup_insert_Some in Hk as [[<- [= <-]]|[Hne Hk]].
      * unfold below in Ho. rewrite Forall_forall in Ho. by apply Ho.
      * apply Hw. left. unfold collection in Hk.
        destruct (store w !! c) as [docs0|] eqn:Hc0; [|done].
        exists c, docs0, key', o'. done.
    + apply Hw. left. exists c', docs, key', o'. done.
  - apply elem_of_app in Hin as [Hin|Hin].
    + apply Hw. right. eauto.
    + specialize (Hcs c' o' Hin Hdata). unfold below in Hcs.
      rewrite Forall_forall in Hcs. by apply Hcs.
Qed.

Lemma independent_intro o w bound :
  Forall (fun l => bound <= l) (idents_object o) ->
  (forall l, held w l -> l < bound) ->
  independent o w.
Proof.
  intros Ho Hw l Hl Hheld. rewrite Forall_forall in Ho.
  specialize (Ho l Hl). specialize (Hw l Hheld). lia.
Qed.

(** The result of [getMovieById] shares no object with the store
    client. *)
Lemma getMovieById_independent id w movie w' :
  world_ok w ->
  getMovieById id w = (Resolved movie, w') ->
  independent movie w' /\ world_ok w'.
Proof.
  intros Hok Hrun.
  destruct (movies w !! id) as [data|] eqn:Hdoc;
    [|by rewrite (getMovieById_absent _ _ Hdoc) in Hrun].
  rewrite (getMovieById_present _ _ _ Hdoc) in Hrun.
  injection Hrun as <- <-.
  destruct (fetched_spec id data w) as [Hlt Hid].
  assert (Hheld : forall l,
    held (World (store w) (clock w) (fetched id data w).2
                (calls w ++ [GetDocumentById COLLECTION id])) l ->
    l < next_ident w).
  { intros l Hl. apply Hok. eapply held_after_read; [|exact Hl].
    intros c Hc. apply list_elem_of_singleton in Hc as ->. done. }
  split.
  - apply (independent_intro _ _ (next_ident w)); [|done].
    eapply Forall_impl; [exact Hid | intros; simpl in *; lia].
  - intros l Hl. specialize (Hheld l Hl). simpl. lia.
Qed.

(** The result of [updateMovie] shares no object with the store client,
    nor with the record the store was handed. *)
Lemma updateMovie_independent id movieData w updated w' :
  world_ok w ->
  below (next_ident w) (idents_object movieData) ->
  updateMovie id movieData w = (Resolved updated, w') ->
  independent updated w' /\ world_ok w'.
Proof.
  intros Hok Hmd Hrun.
  destruct (movies w !! id) as [data|] eqn:Hdoc;
    [|by rewrite (updateMovie_absent _ _ _ Hdoc) in Hrun].
  rewrite (updateMovie_present _ _ _ _ Hdoc) in Hrun.
  injection Hrun as <- <-.
  destruct (fetched_spec id data w) as [Hlt Hid].
  set (n1 := (fetched id data w).2) in *.
  set (merged := apply_update movieData (fetched id data w).1) in *.
  assert (Hmerged : below n1 (idents_object merged)).
  { apply below_apply_update.
    - apply (below_mono (next_ident w)); [lia |].
      unfold below, idents_object in Hmd.
      by apply Forall_cons in Hmd as [_ ?].
    - unfold below. eapply Forall_impl; [exact Hid |].
      intros; simpl in *; lia. }
  destruct (clone_object_spec merged n1) as (_ & _ & Hlt2 & Hid2).
  assert (Hheld : forall l,
    held (World (<[COLLECTION := <[id := Some merged]> (movies w)]> (store w))
                (clock w) (clone_object merged n1).2
                (calls w ++ [GetDocumentById COLLECTION id;
                             UpdateDocument COLLECTION id merged])) l ->
    l < n1).
  { intros l. apply held_after_write; [|done|].
    - intros l' Hl'. specialize (Hok l' Hl'). lia.
    - intros c' o' Hin Hdata.
      rewrite !elem_of_cons, elem_of_nil in Hin.
      destruct Hin as [->|[->|[]]]; simpl in Hdata; [done |].
      by injection Hdata as <-. }
  split.
  - apply (independent_intro _ _ n1); [|done].
    eapply Forall_impl; [exact Hid2 | intros; simpl in *; lia].
  - intros l Hl. specialize (Hheld l Hl). simpl. lia.
Qed.

(** The result of [createMovie] shares no object with the store client,
    nor with the record the store was handed, nor with the input. *)
Lemma createMovie_independent movieData w movie w' :
  world_ok w ->
  below (next_ident w) (idents_object movieData) ->
  createMovie movieData w = (Resolved movie, w') ->
  independent movie w' /\ world_ok w'.
Proof.
  intros Hok Hmd Hrun. rewrite createMovie_run in Hrun.
  injection Hrun as <- <-.
  set (n := next_ident w) in *.
  set (newMovie := Obj (S n) _) in *.
  set (o := Obj (S (S n)) _) in *.
  assert (Hmd' : below (S (S (S n))) (idents_props (own movieData))).
  { apply (below_mono n); [lia |]. unfold below, idents_object in Hmd.
    by apply Forall_cons in Hmd as [_ ?]. }
  assert (Hnew : below (S (S (S n))) (idents_object newMovie)).
  { unfold below, idents_object, newMovie; cbn [ident own].
    apply Forall_cons; split; [lia |].
    apply below_set_prop; [repeat constructor; lia |].
    change (below (S (S (S n)))
              (idents_props (copy_data_properties [] (Some movieData)))).
    apply below_copy_data_properties; [constructor |].
    by intros ? [= <-]. }
  destruct (clone_object_spec o (S (S (S n)))) as (_ & _ & Hlt & Hid).
  assert (Hheld : forall l,
    held (World (<[COLLECTION :=
                     <[fresh (dom (movies w)) := Some newMovie]> (movies w)]>
                   (store w))
                (clock w) (clone_object o (S (S (S n)))).2
                (calls w ++ [CreateDocument COLLECTION newMovie])) l ->
    l < S (S (S n))).
  { intros l. apply held_after_write; [|done|].
    - intros l' Hl'. specialize (Hok l' Hl'). lia.
    - intros c' o' Hin Hdata. apply list_elem_of_singleton in Hin as ->.
      by injection Hdata as <-. }
  split.
  - apply (independent_intro _ _ (S (S (S n)))); [|done].
    eapply Forall_impl; [exact Hid | intros; simpl in *; lia].
  - intros l Hl. specialize (Hheld l Hl). simpl. lia.
Qed.

(** [setTime] on a date that a value does not reach leaves it as it is. *)
Lemma set_time_unreached l t v : l ∉ idents v -> set_time l t v = v.
Proof.
  induction v as [| | | | | l' ms | l' items IH | l' ps IH]
    using value_nested_ind; intros Hl; simpl in *; try done.
  - destruct (decide (l = l')) as [->|]; [|done].
    exfalso. apply Hl, list_elem_of_singleton. done.
  - f_equal. apply not_elem_of_cons in Hl as [_ Hl].
    induction IH as [|x xs Hx _ IHxs]; simpl in *; [done |].
    apply not_elem_of_app in Hl as [Hl1 Hl2].
    by rewrite Hx, IHxs.
  - f_equal. apply not_elem_of_cons in Hl as [_ Hl].
    induction IH as [|[k x] xs Hx _ IHxs]; simpl in *; [done |].
    apply not_elem_of_app in Hl as [Hl1 Hl2].
    by rewrite Hx, IHxs.
Qed.

Lemma set_time_object_unreached l t o :
  l ∉ idents_object o -> set_time_object l t o = o.
Proof.
  intros Hl. pose proof (set_time_unreached l t (of_object o) Hl) as H.
  unfold of_object in H. simpl in H. injection H as H.
  unfold set_time_object. rewrite H. by destruct o.
Qed.

(** [setTime] on a date no stored document reaches leaves the world as it
    is: no later call can observe it. *)
Lemma set_time_world_unheld l t w :
  ~ held w l -> set_time_world l t w = w.
Proof.
  intros Hl. unfold set_time_world.
  assert (Hstore : set_time_docs l t <$> store w = store w);
    [|rewrite Hstore; by destruct w].
  apply map_eq. intros c. rewrite lookup_fmap.
  destruct (store w !! c) as [docs|] eqn:Hc; [|done]. simpl. f_equal.
  apply map_eq. intros key. unfold set_time_docs. rewrite lookup_fmap.
  destruct (docs !! key) as [[o|]|] eqn:Hk; [|done..]. simpl.
  do 2 f_equal. apply set_time_object_unreached. intros Hin.
  apply Hl. left. exists c, docs, key, o. done.
Qed.

(** Mutating a date of an independent result changes nothing a later call
    could read. *)
Lemma independent_set_time o w l t :
  independent o w -> l ∈ idents_object o -> set_time_world l t w = w.
Proof. intros Hind Hl. apply set_time_world_unheld. by apply Hind. Qed.

(** [getAllMovies] hands out the stored property values themselves, not
    copies of them. *)
Lemma getAllMovies_returns_stored_values w :
  exists ms w',
    getAllMovies w = (Resolved ms, w')
    /\ Forall2
         (fun kd m =>
            forall d k v,
              kd.2 = Some d -> get_prop k (own d) = Some v ->
              get_prop k (own m) = Some v)
         (map_to_list (movies w)) ms.
Proof.
  destruct (getAllMovies_one_per_document w) as (ms & w' & Hrun & Hall).
  exists ms, w'. split; [done |].
  eapply Forall2_impl; [exact Hall |]. simpl.
  intros [key data] m Hown d k v Hd Hk. simpl in *. subst data.
  rewrite Hown, get_prop_movie_props. simpl. by rewrite Hk.
Qed.
End identities.

(** The sample world is well formed. *)
Lemma sample_world_ok : world_ok sample_world.
Proof.
  intros l [(c & docs & key & o & Hc & Hk & Hl)
           |(c & o & Hin & _)]; [|by apply elem_of_nil in Hin].
  unfold sample_world in Hc; simpl in Hc.
  apply lookup_singleton_Some in Hc as [<- <-].
  repeat (apply lookup_insert_Some in Hk as [[<- Hk]|[_ Hk]];
          [try discriminate Hk|]); [..|done].
  - injection Hk as <-. simpl.
    unfold idents_object in Hl; simpl in Hl.
    rewrite !elem_of_cons, elem_of_nil in Hl. lia.
  - injection Hk as <-. simpl.
    unfold idents_object in Hl; simpl in Hl.
    rewrite !elem_of_cons, elem_of_nil in Hl. lia.
Qed.

(** C8, at a stored document with a date in it: the movie [getAllMovies]
    returns for "m1" has as its [createdAt] the very date object the stored
    document holds (identity 2), so the client holds an object of the
    result; after [setTime(0)] on the returned date, a later
    [getMovieById "m1"] reads the time 0 where the store had 1000.  The
    movie [getMovieById] returns has a date of its own (identity 12). *)
Theorem getAllMovies_result_aliases_store :
  (exists m3 m1 m2,
     resolved (getAllMovies sample_world) = Some [m3; m1; m2]
     /\ js_get m1 "createdAt" = VDate 2 1000
     /\ js_get dune "createdAt" = VDate 2 1000
     /\ 2 ∈ idents_object m1
     /\ held (getAllMovies sample_world).2 2
     /\ ~ independent m1 (getAllMovies sample_world).2)
  /\ (fun m => js_get m "createdAt")
       <$> resolved (getMovieById "m1" (getAllMovies sample_world).2)
     = Some (VDate 15 1000)
  /\ (fun m => js_get m "createdAt")
       <$> resolved (getMovieById "m1"
                       (set_time_world 2 0 (getAllMovies sample_world).2))
     = Some (VDate 15 0).
Proof.
  assert (Hin : 2 ∈ idents_object
                      (Obj 11 (("id", VStr "m1") :: own dune))).
  { unfold idents_object; simpl. rewrite !elem_of_cons. auto. }
  assert (Hheld : held (getAllMovies sample_world).2 2).
  { left. exists "movies",
      (<["m1" := Some dune]>
         (<["m2" := Some relabelled]> (<["m3" := None]> ∅))), "m1", dune.
    split_and!; [by vm_compute | by vm_compute |].
    unfold idents_object; simpl. rewrite !elem_of_cons. auto. }
  split_and!; [|by vm_compute..].
  exists (Obj 10 [("id", VStr "m3")]),
         (Obj 11 (("id", VStr "m1") :: own dune)),
         (Obj 12 (own relabelled)).
  split_and!; [by vm_compute | by vm_compute | by vm_compute | done | done |].
  intros Hind. by apply (Hind 2).
Qed.

(** ** The re-check, and the scenario of the specification *)

(** C9: whenever [getMovieById] resolves, its result is an object, which is
    truthy, so the re-check [if (!movie)] of [updateMovie] and [deleteMovie]
    passes without throwing: both functions run as they would without it. *)
Theorem recheck_never_throws (id : string) (movieData : jsobject)
    (w : world) :
  match getMovieById id w with
  | (Resolved movie, w') =>
      truthy (of_object movie) = true
      /\ recheck id movie w' = (Resolved tt, w')
  | (Rejected _, _) => True
  end
  /\ updateMovie id movieData w
     = (movie <- getMovieById id ;;
        let updateMovie := apply_update movieData movie in
        updateDocument COLLECTION id updateMovie ;;
        structuredClone updateMovie) w
  /\ deleteMovie id w
     = (movie <- getMovieById id ;; deleteDocument COLLECTION id) w.
Proof.
  unfold updateMovie, deleteMovie, bind.
  by destruct (getMovieById id w) as [[movie|e] w'].
Qed.

(** Create, update the genre, delete, look up: the scenario of the
    specification, run on the sample world. *)
Example scenario :
  let r1 := createMovie (Obj 9 (movieData_props dune_input)) sample_world in
  let key : string := fresh (dom (movies sample_world)) in
  let r2 :=
    updateMovie key (Obj 20 [("genre", VStr "Science Fiction")]) r1.2 in
  let r3 := deleteMovie key r2.2 in
  strip_props <$> (own <$> resolved r1)
  = Some [("id", VStr key); ("title", VStr "Dune");
          ("description", VStr "Desert planet"); ("genre", VStr "Sci-Fi");
          ("rating", VNum (17 # 2)); ("createdAt", VDate 0 5000)]
  /\ strip_props <$> (own <$> resolved r2)
     = Some [("id", VStr key); ("title", VStr "Dune");
             ("description", VStr "Desert planet");
             ("genre", VStr "Science Fiction");
             ("rating", VNum (17 # 2)); ("createdAt", VDate 0 5000)]
  /\ r3.1 = Resolved tt
  /\ (getMovieById key r3.2).1 = Rejected (Error (not_found_message key)).
Proof. split_and!; by vm_compute. Qed.

(** ** Further properties of the reads *)

Lemma movies_same_store (w w' : world) :
  store w' = store w -> movies w' = movies w.
Proof. unfold movies, collection. by intros ->. Qed.


(** X2: on an empty collection [getAllMovies] resolves to the empty
    array. *)
Theorem getAllMovies_empty_collection (w : world) :
  movies w = ∅ -> resolved (getAllMovies w) = Some [].
Proof.
  intros Hempty. rewrite getAllMovies_run, Hempty. unfold resolved; simpl.
  by rewrite map_to_list_empty.
Qed.

Lemma getAllMovies_empty_collection_witness :
  movies empty_world = ∅ /\ resolved (getAllMovies empty_world) = Some [].
Proof.
  split; [reflexivity |].
  apply (getAllMovies_empty_collection empty_world). reflexivity.
Defined.

(** X3: listing and fetching agree: for every document, the movie that
    [getAllMovies] returns for it has the same fields, in the same order, as
    the movie a following [getMovieById] on its key resolves to. *)
Theorem getAllMovies_agrees_with_getMovieById (w : world) :
  exists ms w',
    getAllMovies w = (Resolved ms, w')
    /\ Forall2
         (fun kd m =>
            exists movie w'',
              getMovieById kd.1 w' = (Resolved movie, w'')
              /\ same_fields (own m) (own movie))
         (map_to_list (movies w)) ms.
Proof.
  rewrite getAllMovies_run. eexists _, _. split; [done |].
  apply Forall2_same_length_lookup_2; [by rewrite length_imap |].
  intros i [key data] m Hi Hm.
  rewrite list_lookup_imap, Hi in Hm. injection Hm as <-.
  apply list_elem_of_lookup_2, elem_of_map_to_list in Hi.
  erewrite getMovieById_present; [|by erewrite movies_same_store].
  eexists _, _. split; [done |]. simpl.
  destruct (clone_object_spec
              (Obj (next_ident w + length (map_to_list (movies w)))
                   (movie_props key data))
              (S (next_ident w + length (map_to_list (movies w)))))
    as (_ & Hs & _).
  unfold same_fields in *. unfold fetched. simpl in *. by rewrite Hs.
Qed.

(** X4: [getMovieById] never writes: whether it resolves or rejects, the
    store is as before and the one repository call is the lookup of that
    id. *)
Theorem getMovieById_reads_only (id : string) (w : world) :
  store (getMovieById id w).2 = store w
  /\ calls (getMovieById id w).2
     = (calls w ++ [GetDocumentById COLLECTION id])%list.
Proof.
  destruct (movies w !! id) as [data|] eqn:Hdoc.
  - by rewrite (getMovieById_present _ _ _ Hdoc).
  - by rewrite (getMovieById_absent _ _ Hdoc).
Qed.

(** X5: [getMovieById] passes the stored fields through uninspected: each
    field of the movie holds the data of the stored field of that name; a
    name the document lacks reads as [undefined], except [id], which then
    is the document key. *)
Theorem getMovieById_passes_fields_through (id : string) (w : world)
    (data : option jsobject) :
  movies w !! id = Some data ->
  exists movie w',
    getMovieById id w = (Resolved movie, w')
    /\ forall k,
         same_data (js_get movie k)
           match data ≫= (fun d => get_prop k (own d)) with
           | Some v => v
           | None => if decide (k = "id") then VStr id else VUndefined
           end.
Proof.
  intros Hdoc. rewrite (getMovieById_present _ _ _ Hdoc).
  eexists _, _. split; [done |]. intros k.
  pose proof (get_prop_fetched id data w k) as Hget.
  unfold same_data, js_get.
  destruct (get_prop k (own (fetched id data w).1)) as [v|],
    (data ≫= (fun d => get_prop k (own d))) as [v'|];
    simpl in *; try destruct (decide (k = "id")); simpl in *; congruence.
Qed.

Lemma getMovieById_passes_fields_through_witness :
  movies sample_world !! "m1" = Some (Some dune)
  /\ exists movie w',
       getMovieById "m1" sample_world = (Resolved movie, w')
       /\ forall k,
            same_data (js_get movie k)
              match Some dune ≫= (fun d => get_prop k (own d)) with
              | Some v => v
              | None => if decide (k = "id") then VStr "m1" else VUndefined
              end.
Proof.
  split; [reflexivity |].
  apply (getMovieById_passes_fields_through "m1" sample_world (Some dune)).
  reflexivity.
Defined.

(** ** Further properties of [createMovie] *)

(** What [createMovie] settles to, for any object as input. *)
Lemma createMovie_settles (movieData : jsobject) (w : world) :
  exists newMovie movie w',
    createMovie movieData w = (Resolved movie, w')
    /\ own newMovie
       = set_prop "createdAt" (VDate (next_ident w) (clock w))
           (copy_data_properties [] (Some movieData))
    /\ movies w' = <[fresh (dom (movies w)) := Some newMovie]> (movies w)
    /\ calls w' = (calls w ++ [CreateDocument COLLECTION newMovie])%list
    /\ same_fields (own movie)
         (movie_props (fresh (dom (movies w))) (Some newMovie)).
Proof.
  pose proof (createMovie_run movieData w) as Hrun. cbv zeta in Hrun.
  eexists (Obj _ _), _, _. split_and!; [exact Hrun | done | | done |].
  - unfold movies at 1. by rewrite collection_insert.
  - apply clone_object_spec.
Qed.

Lemma same_fields_trans_sym (ps qs rs : props) :
  same_fields ps rs -> same_fields qs rs -> same_fields ps qs.
Proof. unfold same_fields. congruence. Qed.

(** X6: create, then fetch: when the input has no [id] property, the movie
    [createMovie] resolves to carries as its [id] the key the store
    assigned, and a following [getMovieById] on that id resolves to a movie
    with the same fields. *)
Theorem createMovie_then_getMovieById (movieData : jsobject) (w : world) :
  get_prop "id" (own movieData) = None ->
  exists movie w' key,
    createMovie movieData w = (Resolved movie, w')
    /\ js_get movie "id" = VStr key
    /\ exists movie' w'',
         getMovieById key w' = (Resolved movie', w'')
         /\ same_fields (own movie') (own movie).
Proof.
  intros Hnoid.
  destruct (createMovie_settles movieData w)
    as (newMovie & movie & w' & Hrun & Hown & Hdocs & _ & Hs).
  exists movie, w', (fresh (dom (movies w))). split_and!; [done | |].
  - pose proof (same_fields_get "id" _ _ Hs) as Hid.
    fold (js_get movie "id") in Hid.
    rewrite get_prop_movie_props in Hid. simpl in Hid.
    rewrite Hown, get_prop_set_prop_ne in Hid by done.
    rewrite get_prop_copy_data_properties, Hnoid in Hid. simpl in Hid.
    unfold same_data in Hid. by destruct (js_get movie "id").
  - assert (Hdoc : movies w' !! (fresh (dom (movies w)) : string)
                   = Some (Some newMovie)).
    { rewrite Hdocs. apply lookup_insert_eq. }
    rewrite (getMovieById_present _ _ _ Hdoc). eexists _, _.
    split; [done |]. eapply same_fields_trans_sym; [|exact Hs].
    unfold fetched. apply clone_object_spec.
Qed.

Lemma createMovie_then_getMovieById_witness :
  get_prop "id" (own (Obj 9 (movieData_props dune_input))) = None
  /\ exists movie w' key,
       createMovie (Obj 9 (movieData_props dune_input)) sample_world
       = (Resolved movie, w')
       /\ js_get movie "id" = VStr key
       /\ exists movie' w'',
            getMovieById key w' = (Resolved movie', w'')
            /\ same_fields (own movie') (own movie).
Proof.
  split; [reflexivity |].
  apply (createMovie_then_getMovieById
           (Obj 9 (movieData_props dune_input)) sample_world).
  reflexivity.
Defined.

(** X7: [createMovie] adds one document and touches no other: the key is
    one no document had, every other key holds what it held, the collection
    has one document more, and the one repository call is [createDocument]
    with the record that is then stored. *)
Theorem createMovie_adds_one_document (movieData : jsobject) (w : world) :
  exists key stored movie w',
    createMovie movieData w = (Resolved movie, w')
    /\ movies w !! key = None
    /\ movies w' !! key = Some (Some stored)
    /\ (forall k, k <> key -> movies w' !! k = movies w !! k)
    /\ size (movies w') = S (size (movies w))
    /\ calls w' = (calls w ++ [CreateDocument COLLECTION stored])%list.
Proof.
  destruct (createMovie_settles movieData w)
    as (newMovie & movie & w' & Hrun & _ & Hdocs & Hcalls & _).
  exists (fresh (dom (movies w))), newMovie, movie, w'.
  pose proof (assigned_key_is_new w) as Hnew.
  split_and!; [done | done | | | | done].
  - rewrite Hdocs. apply lookup_insert_eq.
  - intros k Hk. rewrite Hdocs. by apply lookup_insert_ne.
  - rewrite Hdocs. by apply map_size_insert_None.
Qed.

(** X8: the [createdAt] of a created movie is the service's own date: for
    any input, one with a [createdAt] property included, the stored document
    and the returned movie both hold a date of the clock's time at the
    call. *)
Theorem createMovie_stamps_createdAt (movieData : jsobject) (w : world) :
  exists stored movie w' l,
    createMovie movieData w = (Resolved movie, w')
    /\ movies w' !! (fresh (dom (movies w)) : string) = Some (Some stored)
    /\ js_get stored "createdAt" = VDate (next_ident w) (clock w)
    /\ js_get movie "createdAt" = VDate l (clock w).
Proof.
  destruct (createMovie_settles movieData w)
    as (newMovie & movie & w' & Hrun & Hown & Hdocs & _ & Hs).
  assert (Hstored : js_get newMovie "createdAt"
                    = VDate (next_ident w) (clock w)).
  { unfold js_get. by rewrite Hown, get_prop_set_prop_eq. }
  pose proof (same_fields_get "createdAt" _ _ Hs) as Hc.
  fold (js_get movie "createdAt") in Hc.
  rewrite get_prop_movie_props in Hc. simpl in Hc.
  unfold js_get in Hstored.
  destruct (get_prop "createdAt" (own newMovie)) as [v|] eqn:Hv;
    simpl in *; [subst v | done].
  unfold same_data in Hc. simpl in Hc.
  destruct (js_get movie "createdAt") as [| | | | |l ms| |] eqn:Hm;
    simpl in Hc; try done.
  injection Hc as ->.
  exists newMovie, movie, w', l. split_and!; [done | | | done].
  - rewrite Hdocs. apply lookup_insert_eq.
  - unfold js_get. by rewrite Hv.
Qed.

(** X9: the [id] of a created movie: the key the store assigned when the
    input has no [id] property, and the input's own [id] when it has one,
    since [...newMovie] is spread after [id: movieId]. *)
Theorem createMovie_id (movieData : jsobject) (w : world) :
  exists movie w',
    createMovie movieData w = (Resolved movie, w')
    /\ same_data (js_get movie "id")
         match get_prop "id" (own movieData) with
         | Some v => v
         | None => VStr (fresh (dom (movies w)))
         end.
Proof.
  destruct (createMovie_settles movieData w)
    as (newMovie & movie & w' & Hrun & Hown & _ & _ & Hs).
  exists movie, w'. split; [done |].
  pose proof (same_fields_get "id" _ _ Hs) as Hid.
  fold (js_get movie "id") in Hid.
  rewrite get_prop_movie_props in Hid. simpl in Hid.
  rewrite Hown, get_prop_set_prop_ne in Hid by done.
  rewrite get_prop_copy_data_properties in Hid. simpl in Hid.
  by destruct (get_prop "id" (own movieData)).
Qed.

(** ** Further properties of [updateMovie] *)

(** The stored document after an update, and what its fields are. *)
Lemma updateMovie_stored (id : string) (movieData : jsobject) (w : world)
    (data : option jsobject) :
  movies w !! id = Some data ->
  exists stored updated w',
    updateMovie id movieData w = (Resolved updated, w')
    /\ movies w' = <[id := Some stored]> (movies w)
    /\ same_fields (own updated) (own stored)
    /\ forall k,
         strip <$> get_prop k (own stored)
         = strip <$>
             (if applied movieData k then Some (js_get movieData k)
              else match data ≫= (fun d => get_prop k (own d)) with
                   | Some v => Some v
                   | None =>
                       if decide (k = "id") then Some (VStr id) else None
                   end).
Proof.
  intros Hdoc.
  destruct (updateMovie_merge id movieData w data Hdoc)
    as (current & merged & updated & w' & _ & Hrun & Hw' & -> & Hs & Hcur).
  exists (apply_update movieData current), updated, w'.
  split_and!; [done | | done |].
  - rewrite Hw'. unfold movies at 1. by rewrite collection_insert.
  - intros k. rewrite get_prop_apply_update.
    destruct (applied movieData k); [done | apply Hcur].
Qed.

(** X10: update, then fetch: a [getMovieById] that follows an update of an
    existing id resolves to a movie whose every field holds the data the
    updated movie holds. *)
Theorem updateMovie_then_getMovieById (id : string) (movieData : jsobject)
    (w : world) (data : option jsobject) :
  movies w !! id = Some data ->
  exists updated w' movie w'',
    updateMovie id movieData w = (Resolved updated, w')
    /\ getMovieById id w' = (Resolved movie, w'')
    /\ forall k, same_data (js_get movie k) (js_get updated k).
Proof.
  intros Hdoc.
  destruct (updateMovie_stored id movieData w data Hdoc)
    as (stored & updated & w' & Hrun & Hdocs & Hs & Hst).
  assert (Hdoc' : movies w' !! id = Some (Some stored)).
  { rewrite Hdocs. apply lookup_insert_eq. }
  exists updated, w'. rewrite (getMovieById_present _ _ _ Hdoc').
  eexists _, _. split_and!; [done | done |]. intros k.
  pose proof (get_prop_fetched id (Some stored) w' k) as Hf.
  pose proof (same_fields_get k _ _ Hs) as Hu.
  fold (js_get updated k) in Hu. unfold same_data in *.
  rewrite Hu. clear Hu. unfold js_get at 1. simpl in Hf.
  destruct (get_prop k (own stored)) as [v|] eqn:Hk.
  - destruct (get_prop k (own (fetched id (Some stored) w').1));
      simpl in *; congruence.
  - destruct (decide (k = "id")) as [->|Hne].
    + exfalso. specialize (Hst "id"). rewrite Hk in Hst.
      destruct (applied movieData "id"); [done |].
      by destruct (data ≫= (fun d => get_prop "id" (own d))).
    + by destruct (get_prop k (own (fetched id (Some stored) w').1)).
Qed.

Lemma updateMovie_then_getMovieById_witness :
  movies sample_world !! "m1" = Some (Some dune)
  /\ exists updated w' movie w'',
       updateMovie "m1" only_title sample_world = (Resolved updated, w')
       /\ getMovieById "m1" w' = (Resolved movie, w'')
       /\ forall k, same_data (js_get movie k) (js_get updated k).
Proof.
  split; [reflexivity |].
  apply (updateMovie_then_getMovieById "m1" only_title sample_world
           (Some dune)).
  reflexivity.
Defined.

(** X11: [updateMovie] touches no other document: whatever its outcome, a
    document of another key holds what it held, and the collection has the
    keys it had. *)
Theorem updateMovie_other_documents (id id' : string)
    (movieData : jsobject) (w : world) :
  id' <> id ->
  movies (updateMovie id movieData w).2 !! id' = movies w !! id'
  /\ dom (movies (updateMovie id movieData w).2) = dom (movies w).
Proof.
  intros Hne. destruct (movies w !! id) as [data|] eqn:Hdoc.
  - destruct (updateMovie_stored id movieData w data Hdoc)
      as (stored & updated & w' & Hrun & Hdocs & _).
    rewrite Hrun; simpl. rewrite Hdocs. split.
    + by apply lookup_insert_ne.
    + by apply dom_insert_lookup_L.
  - by rewrite (updateMovie_absent _ _ _ Hdoc).
Qed.

Lemma updateMovie_other_documents_witness :
  "m2" <> "m1"
  /\ movies (updateMovie "m1" only_title sample_world).2 !! "m2"
     = movies sample_world !! "m2"
  /\ dom (movies (updateMovie "m1" only_title sample_world).2)
     = dom (movies sample_world).
Proof.
  split; [discriminate |].
  apply (updateMovie_other_documents "m1" "m2" only_title sample_world).
  discriminate.
Defined.

(** X12: every update of an existing id writes, even one that applies no
    field, and the document it writes has an [id] field: the stored [id] if
    the document had one, the document key otherwise. *)
Theorem updateMovie_writes_id_field (id : string) (movieData : jsobject)
    (w : world) (data : option jsobject) :
  movies w !! id = Some data ->
  exists stored v,
    stored_after (updateMovie id movieData w) id = Some stored
    /\ UpdateDocument COLLECTION id stored
       ∈ calls (updateMovie id movieData w).2
    /\ get_prop "id" (own stored) = Some v
    /\ same_data v
         match data ≫= (fun d => get_prop "id" (own d)) with
         | Some v0 => v0
         | None => VStr id
         end.
Proof.
  intros Hdoc.
  destruct (updateMovie_merge id movieData w data Hdoc)
    as (current & merged & updated & w' & _ & Hrun & Hw' & -> & _ & Hcur).
  specialize (Hcur "id"). simpl in Hcur.
  assert (Hid : get_prop "id" (own (apply_update movieData current))
                = get_prop "id" (own current)).
  { by rewrite get_prop_apply_update. }
  destruct (get_prop "id" (own current)) as [v|] eqn:Hv;
    [|by destruct (data ≫= (fun d => get_prop "id" (own d)))].
  exists (apply_update movieData current), v. rewrite Hrun.
  split_and!; [| | done |].
  - unfold stored_after; simpl. rewrite Hw'. unfold movies at 1.
    rewrite collection_insert. by rewrite lookup_insert_eq.
  - simpl. rewrite Hw'. simpl. rewrite elem_of_app, !elem_of_cons. auto.
  - unfold same_data. clear - Hcur.
    destruct (data ≫= (fun d => get_prop "id" (own d)));
      simpl in Hcur; by injection Hcur.
Qed.

Lemma updateMovie_writes_id_field_witness :
  movies sample_world !! "m1" = Some (Some dune)
  /\ exists stored v,
       stored_after (updateMovie "m1" only_title sample_world) "m1"
       = Some stored
       /\ UpdateDocument COLLECTION "m1" stored
          ∈ calls (updateMovie "m1" only_title sample_world).2
       /\ get_prop "id" (own stored) = Some v
       /\ same_data v
            match Some dune ≫= (fun d => get_prop "id" (own d)) with
            | Some v0 => v0
            | None => VStr "m1"
            end.
Proof.
  split; [reflexivity |].
  apply (updateMovie_writes_id_field "m1" only_title sample_world
           (Some dune)).
  reflexivity.
Defined.

(** X13: repeating an update changes nothing more: after the same
    [updateMovie] a second time, every field of the stored document holds
    the data it held after the first. *)
Theorem updateMovie_twice (id : string) (movieData : jsobject) (w : world)
    (data : option jsobject) :
  movies w !! id = Some data ->
  let r1 := updateMovie id movieData w in
  let r2 := updateMovie id movieData r1.2 in
  exists s1 s2,
    stored_after r1 id = Some s1
    /\ stored_after r2 id = Some s2
    /\ forall k, same_data (js_get s2 k) (js_get s1 k).
Proof.
  intros Hdoc r1 r2. subst r1 r2.
  destruct (updateMovie_stored id movieData w data Hdoc)
    as (s1 & u1 & w1 & Hrun1 & Hdocs1 & _ & Hst1).
  rewrite Hrun1. simpl.
  assert (Hdoc1 : movies w1 !! id = Some (Some s1)).
  { rewrite Hdocs1. apply lookup_insert_eq. }
  destruct (updateMovie_stored id movieData w1 (Some s1) Hdoc1)
    as (s2 & u2 & w2 & Hrun2 & Hdocs2 & _ & Hst2).
  rewrite Hrun2. exists s1, s2. unfold stored_after; simpl.
  rewrite Hdocs2, lookup_insert_eq, Hdoc1. split_and!; [done | done |].
  intros k. specialize (Hst1 k). specialize (Hst2 k). simpl in Hst2.
  unfold same_data, js_get.
  destruct (applied movieData k).
  - destruct (get_prop k (own s1)), (get_prop k (own s2));
      simpl in *; congruence.
  - destruct (get_prop k (own s1)) as [v1|] eqn:Hk1.
    + destruct (get_prop k (own s2)); simpl in *; congruence.
    + destruct (decide (k = "id")) as [->|Hne].
      * by destruct (data ≫= (fun d => get_prop "id" (own d))).
      * by destruct (get_prop k (own s2)).
Qed.

Lemma updateMovie_twice_witness :
  movies sample_world !! "m1" = Some (Some dune)
  /\ exists s1 s2,
       stored_after (updateMovie "m1" only_title sample_world) "m1" = Some s1
       /\ stored_after
            (updateMovie "m1" only_title
               (updateMovie "m1" only_title sample_world).2) "m1"
          = Some s2
       /\ forall k, same_data (js_get s2 k) (js_get s1 k).
Proof.
  split; [reflexivity |].
  apply (updateMovie_twice "m1" only_title sample_world (Some dune)).
  reflexivity.
Defined.

(** ** Further properties of [deleteMovie] *)

(** X14: [deleteMovie] on an existing id removes that document and no
    other: the collection afterwards is the one before without that key. *)
Theorem deleteMovie_removes_only_that_document (id : string) (w : world)
    (data : option jsobject) :
  movies w !! id = Some data ->
  movies (deleteMovie id w).2 = delete id (movies w)
  /\ size (movies (deleteMovie id w).2) = pred (size (movies w))
  /\ forall id', id' <> id ->
       movies (deleteMovie id w).2 !! id' = movies w !! id'.
Proof.
  intros Hdoc.
  assert (Hm : movies (deleteMovie id w).2 = delete id (movies w)).
  { rewrite (deleteMovie_present _ _ _ Hdoc). simpl.
    unfold movies at 1. by rewrite collection_insert. }
  rewrite Hm. split_and!; [done | |].
  - by rewrite map_size_delete, Hdoc.
  - intros id' Hne. by apply lookup_delete_ne.
Qed.

Lemma deleteMovie_removes_only_that_document_witness :
  movies sample_world !! "m1" = Some (Some dune)
  /\ movies (deleteMovie "m1" sample_world).2
     = delete "m1" (movies sample_world)
  /\ size (movies (deleteMovie "m1" sample_world).2)
     = pred (size (movies sample_world))
  /\ forall id', id' <> "m1" ->
       movies (deleteMovie "m1" sample_world).2 !! id'
       = movies sample_world !! id'.
Proof.
  split; [reflexivity |].
  apply (deleteMovie_removes_only_that_document "m1" sample_world
           (Some dune)).
  reflexivity.
Defined.

(** X15: deleting is not idempotent: whatever the first [deleteMovie] did,
    a second one on the same id rejects with the not-found error and issues
    no deletion. *)
Theorem deleteMovie_twice (id : string) (w : world) :
  let w1 := (deleteMovie id w).2 in
  (deleteMovie id w1).1 = Rejected (Error (not_found_message id))
  /\ calls (deleteMovie id w1).2
     = (calls w1 ++ [GetDocumentById COLLECTION id])%list.
Proof.
  intros w1.
  assert (Hgone : movies w1 !! id = None).
  { subst w1. destruct (movies w !! id) as [data|] eqn:Hdoc.
    - rewrite (deleteMovie_present _ _ _ Hdoc). simpl.
      unfold movies at 1. rewrite collection_insert. apply lookup_delete_eq.
    - by rewrite (deleteMovie_absent _ _ Hdoc). }
  by rewrite (deleteMovie_absent _ _ Hgone).
Qed.

(** ** Results and the objects the store client holds *)

Lemma world_ok_record_call (c : call) (w : world) :
  call_data c = None -> world_ok w -> world_ok (record_call c w).
Proof.
  intros Hc Hok l Hl. simpl. apply Hok.
  eapply held_after_read; [|exact Hl].
  intros c' Hin. by apply list_elem_of_singleton in Hin as ->.
Qed.

(** X16: in a world where every held identity has been taken, the movie
    [getMovieById] resolves to shares no object with the store client, so
    [setTime] on any date of it leaves the world as it is; the world stays
    well formed whether the call resolves or rejects. *)
Theorem getMovieById_result_is_its_own (id : string) (w : world) :
  world_ok w ->
  match getMovieById id w with
  | (Resolved movie, w') =>
      independent movie w' /\ world_ok w'
      /\ forall l t, l ∈ idents_object movie -> set_time_world l t w' = w'
  | (Rejected _, w') => world_ok w'
  end.
Proof.
  intros Hok. destruct (getMovieById id w) as [[movie|e] w'] eqn:Hrun.
  - destruct (getMovieById_independent id w movie w' Hok Hrun) as [Hi Hok'].
    split_and!; [done | done |]. intros l t Hl.
    by apply (independent_set_time movie).
  - destruct (movies w !! id) as [data|] eqn:Hdoc.
    + by rewrite (getMovieById_present _ _ _ Hdoc) in Hrun.
    + rewrite (getMovieById_absent _ _ Hdoc) in Hrun.
      injection Hrun as _ <-. by apply world_ok_record_call.
Qed.

Lemma getMovieById_result_is_its_own_witness :
  world_ok sample_world
  /\ match getMovieById "m1" sample_world with
     | (Resolved movie, w') =>
         independent movie w' /\ world_ok w'
         /\ forall l t, l ∈ idents_object movie -> set_time_world l t w' = w'
     | (Rejected _, w') => world_ok w'
     end.
Proof.
  split; [exact sample_world_ok |].
  apply (getMovieById_result_is_its_own "m1" sample_world).
  exact sample_world_ok.
Defined.

(** X17: in such a world, and for an input made before the call, the movie
    [createMovie] resolves to shares no object with the store client, which
    holds the record it was handed; the world stays well formed. *)
Theorem createMovie_result_is_its_own (movieData : jsobject) (w : world) :
  world_ok w ->
  below (next_ident w) (idents_object movieData) ->
  exists movie w',
    createMovie movieData w = (Resolved movie, w')
    /\ independent movie w' /\ world_ok w'
    /\ forall l t, l ∈ idents_object movie -> set_time_world l t w' = w'.
Proof.
  intros Hok Hmd.
  destruct (createMovie_settles movieData w)
    as (_ & movie & w' & Hrun & _).
  destruct (createMovie_independent movieData w movie w' Hok Hmd Hrun)
    as [Hi Hok'].
  exists movie, w'. split_and!; [done | done | done |].
  intros l t Hl. by apply (independent_set_time movie).
Qed.

Lemma createMovie_result_is_its_own_witness :
  world_ok sample_world
  /\ below (next_ident sample_world) (idents_object only_title)
  /\ exists movie w',
       createMovie only_title sample_world = (Resolved movie, w')
       /\ independent movie w' /\ world_ok w'
       /\ forall l t, l ∈ idents_object movie -> set_time_world l t w' = w'.
Proof.
  assert (Hb : below (next_ident sample_world) (idents_object only_title)).
  { unfold below, idents_object; simpl. repeat constructor. }
  split; [exact sample_world_ok |]. split; [exact Hb |].
  apply (createMovie_result_is_its_own only_title sample_world
           sample_world_ok Hb).
Defined.

(** X18: in such a world, and for an input made before the call, the movie
    [updateMovie] resolves to shares no object with the store client, which
    holds the merged record it was handed; the world stays well formed
    whether the call resolves or rejects. *)
Theorem updateMovie_result_is_its_own (id : string) (movieData : jsobject)
    (w : world) :
  world_ok w ->
  below (next_ident w) (idents_object movieData) ->
  match updateMovie id movieData w with
  | (Resolved updated, w') =>
      independent updated w' /\ world_ok w'
      /\ forall l t, l ∈ idents_object updated -> set_time_world l t w' = w'
  | (Rejected _, w') => world_ok w'
  end.
Proof.
  intros Hok Hmd.
  destruct (updateMovie id movieData w) as [[updated|e] w'] eqn:Hrun.
  - destruct (updateMovie_independent id movieData w updated w' Hok Hmd Hrun)
      as [Hi Hok'].
    split_and!; [done | done |]. intros l t Hl.
    by apply (independent_set_time updated).
  - destruct (movies w !! id) as [data|] eqn:Hdoc.
    + by rewrite (updateMovie_present _ _ _ _ Hdoc) in Hrun.
    + rewrite (updateMovie_absent _ _ _ Hdoc) in Hrun.
      injection Hrun as _ <-. by apply world_ok_record_call.
Qed.

Lemma updateMovie_result_is_its_own_witness :
  world_ok sample_world
  /\ below (next_ident sample_world) (idents_object only_title)
  /\ match updateMovie "m1" only_title sample_world with
     | (Resolved updated, w') =>
         independent updated w' /\ world_ok w'
         /\ forall l t,
              l ∈ idents_object updated -> set_time_world l t w' = w'
     | (Rejected _, w') => world_ok w'
     end.
Proof.
  assert (Hb : below (next_ident sample_world) (idents_object only_title)).
  { unfold below, idents_object; simpl. repeat constructor. }
  split; [exact sample_world_ok |]. split; [exact Hb |].
  apply (updateMovie_result_is_its_own "m1" only_title sample_world
           sample_world_ok Hb).
Defined.

(** X19: in such a world, each movie [getAllMovies] returns is a new
    object: its own identity is not held by the store client (its property
    values are the stored ones); the world stays well formed. *)
Theorem getAllMovies_movies_are_new_objects (w : world) :
  world_ok w ->
  exists ms w',
    getAllMovies w = (Resolved ms, w')
    /\ Forall (fun m => ~ held w' (ident m)) ms
    /\ world_ok w'.
Proof.
  intros Hok. rewrite getAllMovies_run. eexists _, _. split; [done |].
  assert (Hheld : forall l,
    held (World (store w) (clock w)
                (next_ident w + length (map_to_list (movies w)))
                (calls w ++ [GetDocuments COLLECTION])) l ->
    l < next_ident w).
  { intros l Hl. apply Hok. eapply held_after_read; [|exact Hl].
    intros c Hc. by apply list_elem_of_singleton in Hc as ->. }
  split.
  - apply Forall_forall. intros m Hm Hh.
    apply list_elem_of_lookup in Hm as [i Hm].
    rewrite list_lookup_imap in Hm.
    destruct (map_to_list (movies w) !! i) as [kd|]; [|done].
    injection Hm as <-. apply Hheld in Hh. simpl in Hh. lia.
  - intros l Hl. specialize (Hheld l Hl). simpl. lia.
Qed.

Lemma getAllMovies_movies_are_new_objects_witness :
  world_ok sample_world
  /\ exists ms w',
       getAllMovies sample_world = (Resolved ms, w')
       /\ Forall (fun m => ~ held w' (ident m)) ms
       /\ world_ok w'.
Proof.
  split; [exact sample_world_ok |].
  apply (getAllMovies_movies_are_new_objects sample_world).
  exact sample_world_ok.
Defined.
